(** * graphql-fields-list: a shallow embedding of [src/index.ts] and [index.ts]

    The library computes, from a resolver's [GraphQLResolveInfo], the fields
    a client requested: as a nested presence map ([fieldsMap]), as a list of
    names ([fieldsList]) and as a flat dot-notation projection
    ([fieldsProjection]).

    Modelling conventions.
    - A JS object used as a dictionary is an association list kept in
      insertion order, with at most one entry per key: [lookup] is property
      read, [set] is property write (an existing key keeps its position, a
      new key goes last), [keys] is [Object.keys].  This is the enumeration
      order of JS for keys that are not canonical array indices; GraphQL
      names never are, and wildcard keys contain a star.
    - A dictionary holds the own keys of the object.  A read [obj[key]] of
      the code also finds the members inherited from [Object.prototype]
      ([constructor], [toString], ...), so [lookup] is the read of the code
      for the keys that name no such member ([own_only]).  A property
      that holds of the code for such keys only says so in its statement:
      it is stated for names, path segments, pattern segments, variable
      names and table entries that satisfy [own_only].
    - [new RegExp] is modelled for the sources made of name characters,
      dots and stars; the properties that depend on a wildcard test are
      stated for wildcard keys made of name characters and stars
      ([plain_segment]).
    - A string is a [string] of 8-bit characters.
    - The modules are ES modules, hence strict code: creating a property on
      the primitive [true] raises a [TypeError].
    - Recursion through the fragment table need not terminate; [traverse]
      therefore takes a recursion-depth budget and answers [OutOfFuel] when
      it is exhausted. *)

From Stdlib Require Import List String Ascii Bool Arith Lia Permutation.
From Equations Require Import Equations.
Import ListNotations.
Local Open Scope string_scope.
Local Open Scope list_scope.

Set Implicit Arguments.
Set Warnings "-register-all".

(** ** Outcomes of a call *)

Inductive result (A : Type) : Type :=
| Ok (a : A)
| TypeError
| OutOfFuel.
Arguments Ok {A} a.
Arguments TypeError {A}.
Arguments OutOfFuel {A}.

Definition bind {A B : Type} (r : result A) (k : A -> result B) : result B :=
  match r with
  | Ok a => k a
  | TypeError => TypeError
  | OutOfFuel => OutOfFuel
  end.

Notation "x <- r ;; k" := (bind r (fun x => k))
  (at level 61, r at next level, right associativity).

(** ** JS objects as insertion-ordered dictionaries

    [lookup] finds own keys only; see [own_only] for the keys on which it
    is the property read of JS. *)

Section Dict.
Variable V : Type.

Definition dict := list (string * V).

Fixpoint lookup (k : string) (d : dict) : option V :=
  match d with
  | [] => None
  | (k', v) :: rest => if String.eqb k k' then Some v else lookup k rest
  end.

Fixpoint set (k : string) (v : V) (d : dict) : dict :=
  match d with
  | [] => [(k, v)]
  | (k', v') :: rest =>
      if String.eqb k k' then (k', v) :: rest else (k', v') :: set k v rest
  end.

Definition keys (d : dict) : list string := map fst d.
End Dict.

Arguments lookup {V} k d.
Arguments set {V} k v d.
Arguments keys {V} d.

(** ** [String.prototype.split] on a dot *)

(** [split_from acc s] splits [s] on dots, [acc] being the characters of the
    current segment read so far, in reverse. *)
Fixpoint rev_string (acc : list ascii) (s : string) : string :=
  match acc with
  | [] => s
  | c :: acc' => rev_string acc' (String c s)
  end.

Fixpoint split_from (acc : list ascii) (s : string) : list string :=
  match s with
  | EmptyString => [rev_string acc EmptyString]
  | String c s' =>
      if Ascii.eqb c "."%char
      then rev_string acc EmptyString :: split_from [] s'
      else split_from (c :: acc) s'
  end.

(** [path.split('.')]: never empty, [split_dot "" = [""]]. *)
Definition split_dot (s : string) : list string := split_from [] s.

(** ** The query AST (read only) *)

Inductive ValueNode : Type :=
| BooleanValue (value : bool)
| Variable_ (name : string)
| OtherValue.

Record ArgumentNode : Type := mkArgument {
  arg_name : string;
  arg_value : ValueNode
}.

Record DirectiveNode : Type := mkDirective {
  dir_name : string;
  dir_arguments : option (list ArgumentNode)
}.

(** Variable bindings.  Only the truthiness of a bound value is observed, so
    a value is a [bool]; an unbound name that names no inherited member
    reads [undefined], which is falsy. *)
Definition VariablesValues := dict bool.

Inductive SelectionNode : Type :=
| Field (name : string) (directives : option (list DirectiveNode))
        (selectionSet : option (list SelectionNode))
| FragmentSpread (name : string) (directives : option (list DirectiveNode))
| InlineFragment (directives : option (list DirectiveNode))
                 (selectionSet : list SelectionNode).

Record FragmentDefinitionNode : Type := mkFragment {
  frag_selectionSet : list SelectionNode
}.

Definition FragmentItem := dict FragmentDefinitionNode.

Definition node_directives (node : SelectionNode) : option (list DirectiveNode) :=
  match node with
  | Field _ d _ => d
  | FragmentSpread _ d => d
  | InlineFragment d _ => d
  end.

(** [getNodes]: [selection?.selectionSet?.selections || []]. *)
Definition getNodes (selection : SelectionNode) : list SelectionNode :=
  match selection with
  | Field _ _ (Some sels) => sels
  | Field _ _ None => []
  | FragmentSpread _ _ => []
  | InlineFragment _ sels => sels
  end.

(** ** Directive evaluator *)

Definition checkValue (name : string) (value : bool) : bool :=
  if String.eqb name "skip" then negb value
  else if String.eqb name "include" then value else true.

(** [vars[name]], for a [name] that names no inherited member. *)
Definition var_value (vars : VariablesValues) (name : string) : bool :=
  match lookup name vars with
  | Some b => b
  | None => false
  end.

Definition verifyDirectiveArg (name : string) (arg : ArgumentNode)
    (vars : VariablesValues) : bool :=
  match arg_value arg with
  | BooleanValue value => checkValue name value
  | Variable_ v => checkValue name (var_value vars v)
  | OtherValue => true
  end.

Definition verifyDirective (directive : DirectiveNode)
    (vars : VariablesValues) : bool :=
  let directiveName := dir_name directive in
  if negb (String.eqb directiveName "include" || String.eqb directiveName "skip")
  then true
  else
    let args := match dir_arguments directive with
                | Some args => args
                | None => []
                end in
    forallb (fun arg => verifyDirectiveArg directiveName arg vars) args.

Definition verifyDirectives (directives : option (list DirectiveNode))
    (vars : option VariablesValues) : bool :=
  match directives with
  | None | Some [] => true
  | Some directives =>
      let vars := match vars with Some vars => vars | None => [] end in
      forallb (fun directive => verifyDirective directive vars) directives
  end.

(** ** Skip-pattern compiler *)

Inductive SkipValue : Type :=
| SFalse
| STrue
| STree (tree : list (string * SkipValue)).

Definition SkipTree := dict SkipValue.

(** The inner loop of [skipTree] over the segments [props] of one pattern,
    started at the object [propTree].  The loop rebinds [propTree] to
    [propTree[prop]] after each segment; once that is the primitive [true]
    and a segment is left, [propTree[prop] = ...] creates a property on a
    boolean, which strict code refuses with a [TypeError].  The segments
    are taken to name no inherited member: [propTree[prop]] is then an own
    key or [undefined]. *)
Fixpoint skipProps (props : list string) (propTree : SkipTree)
    : result SkipTree :=
  match props with
  | [] => Ok propTree
  | prop :: rest =>
      let all := match rest with
                 | next :: _ => String.eqb next "*"
                 | [] => false
                 end in
      match lookup prop propTree with
      | Some STrue =>
          match rest with
          | [] => Ok propTree
          | _ :: _ => TypeError
          end
      | Some (STree sub) =>
          sub' <- skipProps rest sub ;;
          Ok (set prop (STree sub') propTree)
      | Some SFalse | None =>
          if match rest with [] => true | _ :: _ => all end
          then
            match (if all then tl rest else rest) with
            | [] => Ok (set prop STrue propTree)
            | _ :: _ => TypeError
            end
          else
            sub' <- skipProps rest [] ;;
            Ok (set prop (STree sub') propTree)
      end
  end.

Fixpoint skipPatterns (skip : list string) (tree : SkipTree)
    : result SkipTree :=
  match skip with
  | [] => Ok tree
  | pattern :: rest =>
      tree' <- skipProps (split_dot pattern) tree ;;
      skipPatterns rest tree'
  end.

Definition skipTree (skip : list string) : result SkipTree :=
  skipPatterns skip [].

(** ** Wildcard keys as regular expressions

    [new RegExp(pattern.replace(RX_AST, '.*'))] is modelled for the sources
    that are made of name characters, the dot and the star: a character or
    a dot, each optionally followed by a star.  These are the sources of
    the wildcard keys made of name characters and stars; for a key with
    another character ([$], [(], [+], ...) the definition below is not the
    expression of JS.  The dot matches every character but a line
    terminator. *)

Inductive rx_atom : Type :=
| RxChar (c : ascii)
| RxAny.

Inductive rx_item : Type :=
| RxOne (a : rx_atom)
| RxStar (a : rx_atom).

Definition RegExp_t := list rx_item.

(** [RX_AST = /\*/g] with the replacement ['.*']. *)
Fixpoint replace_RX_AST (s : string) : string :=
  match s with
  | EmptyString => EmptyString
  | String c s' =>
      if Ascii.eqb c "*"%char
      then String "."%char (String "*"%char (replace_RX_AST s'))
      else String c (replace_RX_AST s')
  end.

Fixpoint RegExp (source : string) : RegExp_t :=
  match source with
  | EmptyString => []
  | String c s' =>
      let a := if Ascii.eqb c "."%char then RxAny else RxChar c in
      match s' with
      | String "*"%char s'' => RxStar a :: RegExp s''
      | _ => RxOne a :: RegExp s'
      end
  end.

Definition atom_ok (a : rx_atom) (c : ascii) : bool :=
  match a with
  | RxChar c' => Ascii.eqb c' c
  | RxAny => negb (Ascii.eqb c "010"%char || Ascii.eqb c "013"%char)
  end.

(** [rx_here r s]: [r] matches a prefix of [s]. *)
Fixpoint rx_here (r : RegExp_t) (s : string) : bool :=
  match r with
  | [] => true
  | RxOne a :: r' =>
      match s with
      | String c s' => atom_ok a c && rx_here r' s'
      | EmptyString => false
      end
  | RxStar a :: r' =>
      (fix star (s : string) : bool :=
         rx_here r' s ||
         match s with
         | String c s' => atom_ok a c && star s'
         | EmptyString => false
         end) s
  end.

(** [rx.test(s)] for a regular expression without flags or anchors: a match
    may start anywhere. *)
Fixpoint rx_test (r : RegExp_t) (s : string) : bool :=
  rx_here r s ||
  match s with
  | String _ s' => rx_test r s'
  | EmptyString => false
  end.

(** [~pattern.indexOf('*')]. *)
Fixpoint has_star (pattern : string) : bool :=
  match pattern with
  | EmptyString => false
  | String c s' => Ascii.eqb c "*"%char || has_star s'
  end.

(** ** Skip-scope resolution

    [skip[node]] is read as an own key: [verifySkip] below is the function
    of the code for a [node] that names no inherited member. *)

(** The [for] loop of [verifySkip] over the wildcard keys. *)
Fixpoint scanPatterns (node : string) (skip : SkipTree)
    (patterns : list string) (nodeTree : SkipValue) : SkipValue :=
  match patterns with
  | [] => nodeTree
  | pattern :: rest =>
      if rx_test (RegExp (replace_RX_AST pattern)) node
      then
        match lookup pattern skip with
        | Some STrue => STrue
        | Some v => scanPatterns node skip rest v
        | None => scanPatterns node skip rest SFalse
        end
      else scanPatterns node skip rest nodeTree
  end.

Definition verifySkip (node : string) (skip : SkipValue) : SkipValue :=
  match skip with
  | SFalse => SFalse
  | STrue => SFalse
  | STree tree =>
      match lookup node tree with
      | Some STrue => STrue
      | Some (STree sub) => STree sub
      | Some SFalse | None =>
          scanPatterns node tree (filter has_star (keys tree)) SFalse
      end
  end.

(** ** Selection-tree walker *)

Inductive MapResultKey : Type :=
| MFalse
| MTree (tree : list (string * MapResultKey)).

Definition MapResult := dict MapResultKey.

Record TraverseOptions : Type := mkTraverseOptions {
  fragments : FragmentItem;
  vars : option VariablesValues;
  withVars : bool
}.

Definition is_nil {A : Type} (l : list A) : bool :=
  match l with [] => true | _ :: _ => false end.

Section TraverseBody.
(** The recursive calls of [traverse], one level deeper. *)
Variable rec : list SelectionNode -> MapResult -> SkipValue -> result MapResult.
Variable opts : TraverseOptions.

(** A node that is neither rejected by its directives nor an inline
    fragment, [name] being [node.name.value] and [nodes] its
    sub-selections.  The node stands for a fragment when [name] is a key of
    the fragment table, whatever its kind; otherwise it is a field.
    For a [name] that names no inherited member, [root[name]] is an own
    key or [undefined], and an object found there is an object of the map
    that nothing else refers to, so the in-place update by the recursive
    call is the write-back of the map it returns.  The recursive call is
    made for a non-empty [nodes] only, and [root[name]] is then an object. *)
Definition traverse_named (name : string) (nodes : list SelectionNode)
    (root : MapResult) (skip : SkipValue) : result MapResult :=
  match lookup name (fragments opts) with
  | Some fragment => rec (frag_selectionSet fragment) root skip
  | None =>
      match verifySkip name skip with
      | STrue => Ok root
      | nodeSkip =>
          let cur := match lookup name root with
                     | Some (MTree sub) => MTree sub
                     | Some MFalse | None =>
                         if is_nil nodes then MFalse else MTree []
                     end in
          let root1 := set name cur root in
          match nodes, cur with
          | _ :: _, MTree child =>
              child' <- rec nodes child nodeSkip ;;
              Ok (set name (MTree child') root1)
          | _, _ => Ok root1
          end
      end
  end.

Definition traverse_node (node : SelectionNode) (root : MapResult)
    (skip : SkipValue) : result MapResult :=
  if withVars opts && negb (verifyDirectives (node_directives node) (vars opts))
  then Ok root
  else
    match node with
    | InlineFragment _ nodes =>
        if is_nil nodes then Ok root else rec nodes root skip
    | Field name _ _ => traverse_named name (getNodes node) root skip
    | FragmentSpread name _ => traverse_named name (getNodes node) root skip
    end.

Fixpoint traverse_loop (nodes : list SelectionNode) (root : MapResult)
    (skip : SkipValue) : result MapResult :=
  match nodes with
  | [] => Ok root
  | node :: rest =>
      root' <- traverse_node node root skip ;;
      traverse_loop rest root' skip
  end.
End TraverseBody.

(** [traverse], with a budget [fuel] on the depth of the recursion. *)
Fixpoint traverse (fuel : nat) (opts : TraverseOptions)
    (nodes : list SelectionNode) (root : MapResult) (skip : SkipValue)
    : result MapResult :=
  match fuel with
  | O => OutOfFuel
  | S fuel' => traverse_loop (traverse fuel' opts) opts nodes root skip
  end.

(** ** Branch extractor *)

(** The [for] loop of [getBranch] over the segments of the path, each
    read as an own key. *)
Fixpoint branchLoop (fieldNames : list string) (tree : MapResult) : MapResult :=
  match fieldNames with
  | [] => tree
  | fieldName :: rest =>
      match lookup fieldName tree with
      | Some (MTree branch) => branchLoop rest branch
      | Some MFalse | None => []
      end
  end.

Definition getBranch (tree : MapResult) (path : option string) : MapResult :=
  match path with
  | None | Some EmptyString => tree
  | Some path => branchLoop (split_dot path) tree
  end.

(** ** Entry resolver *)

Record FieldNode : Type := mkFieldNode {
  fn_name : string;
  fn_directives : option (list DirectiveNode);
  fn_selectionSet : option (list SelectionNode)
}.

Record GraphQLResolveInfo : Type := mkInfo {
  fieldName : string;
  fieldNodes : option (list FieldNode);
  fieldASTs : option (list FieldNode);
  info_fragments : FragmentItem;
  variableValues : option VariablesValues
}.

Definition verifyFieldNode (info : GraphQLResolveInfo)
    (nodes : list FieldNode) : option FieldNode :=
  match find (fun node => String.eqb (fn_name node) (fieldName info)) nodes with
  | Some fieldNode =>
      match fn_selectionSet fieldNode with
      | Some _ => Some fieldNode
      | None => None
      end
  | None => None
  end.

(** [verifyInfo]: [None] is [null].  The legacy attribute [fieldASTs] stands
    in for an absent [fieldNodes]. *)
Definition verifyInfo (info : option GraphQLResolveInfo) : option FieldNode :=
  match info with
  | None => None
  | Some info =>
      match fieldNodes info with
      | Some nodes => verifyFieldNode info nodes
      | None =>
          match fieldASTs info with
          | Some nodes => verifyFieldNode info nodes
          | None => None
          end
      end
  end.

(** ** Options *)

Definition FieldNamesMap := dict string.

Record FieldsListOptions : Type := mkOptions {
  path : option string;
  transform : option FieldNamesMap;
  withDirectives : option bool;
  keepParentField : option bool;
  skip : option (list string)
}.

Definition noOptions : FieldsListOptions :=
  mkOptions None None None None None.

Definition parseOptions (options : option FieldsListOptions)
    : FieldsListOptions :=
  match options with
  | None => noOptions
  | Some options =>
      match withDirectives options with
      | None =>
          mkOptions (path options) (transform options) (Some true)
                    (keepParentField options) (skip options)
      | Some _ => options
      end
  end.

Definition truthy (b : option bool) : bool :=
  match b with
  | Some true => true
  | _ => false
  end.

(** ** Public operations *)

Definition fieldsMap (fuel : nat) (info : option GraphQLResolveInfo)
    (options : option FieldsListOptions) : result MapResult :=
  match verifyInfo info, info with
  | Some fieldNode, Some info =>
      let options := parseOptions options in
      skipRules <- skipTree (match skip options with
                             | Some skip => skip
                             | None => []
                             end) ;;
      tree <- traverse fuel
                (mkTraverseOptions (info_fragments info) (variableValues info)
                                   (truthy (withDirectives options)))
                (match fn_selectionSet fieldNode with
                 | Some sels => sels
                 | None => []
                 end)
                [] (STree skipRules) ;;
      Ok (getBranch tree (path options))
  | _, _ => Ok []
  end.

(** [transform[name] || name], the table being read for own keys: an
    empty replacement is falsy. *)
Definition renamed (transform : FieldNamesMap) (name : string) : string :=
  match lookup name transform with
  | Some EmptyString | None => name
  | Some replacement => replacement
  end.

Definition transform_of (options : option FieldsListOptions) : FieldNamesMap :=
  match options with
  | Some options =>
      match transform options with
      | Some transform => transform
      | None => []
      end
  | None => []
  end.

(** [options] defaults to [{}], an object, so that [fieldsMap] always
    receives one from [fieldsList]. *)
Definition fieldsList (fuel : nat) (info : option GraphQLResolveInfo)
    (options : option FieldsListOptions) : result (list string) :=
  let options := match options with
                 | Some options => options
                 | None => noOptions
                 end in
  tree <- fieldsMap fuel info (Some options) ;;
  Ok (map (renamed (transform_of (Some options))) (keys tree)).

Definition toDotNotation (parent child : string) : string :=
  match parent with
  | EmptyString => child
  | _ => parent ++ "." ++ child
  end.

Definition FieldsProjection := dict nat.

Definition keepParent (options : option FieldsListOptions) : bool :=
  match options with
  | Some options => truthy (keepParentField options)
  | None => false
  end.

(** The number of sub-maps of a presence map: the measure under which the
    work list of the flattener shrinks. *)
Fixpoint key_size (v : MapResultKey) : nat :=
  match v with
  | MFalse => 0
  | MTree tree =>
      S ((fix sum (t : list (string * MapResultKey)) : nat :=
            match t with
            | [] => 0
            | (_, v') :: rest => key_size v' + sum rest
            end) tree)
  end.

Fixpoint tree_size (tree : MapResult) : nat :=
  match tree with
  | [] => 0
  | (_, v) :: rest => key_size v + tree_size rest
  end.

Fixpoint stack_size (stack : list (string * MapResult)) : nat :=
  match stack with
  | [] => 0
  | (_, tree) :: rest => S (tree_size tree) + stack_size rest
  end.

Section Flattener.
Variable transform : FieldNamesMap.
Variable keep : bool.

(** The [for] loop over the keys of [stack[0].tree], [node] being
    [stack[0].node]: it pushes on [stack] and writes to [map]. *)
Fixpoint projectLevel (node : string) (tree : MapResult)
    (stack : list (string * MapResult)) (map : FieldsProjection)
    : list (string * MapResult) * FieldsProjection :=
  match tree with
  | [] => (stack, map)
  | (j, MTree sub) :: rest =>
      let nodeDottedName := toDotNotation node j in
      projectLevel node rest (stack ++ [(nodeDottedName, sub)])
                   (if keep then set nodeDottedName 1 map else map)
  | (j, MFalse) :: rest =>
      let dotName := renamed transform (toDotNotation node j) in
      projectLevel node rest stack (set dotName 1 map)
  end.

(** What one level pushes: the sub-maps of [tree] under their paths. *)
Fixpoint children (node : string) (tree : MapResult)
    : list (string * MapResult) :=
  match tree with
  | [] => []
  | (j, MTree sub) :: rest => (toDotNotation node j, sub) :: children node rest
  | (_, MFalse) :: rest => children node rest
  end.

(** The [while (stack.length)] loop: one level per round, then
    [stack.shift()]. *)
Equations? projectLoop (stack : list (string * MapResult))
    (map : FieldsProjection) : FieldsProjection
    by wf (stack_size stack) lt :=
  projectLoop [] map := map;
  projectLoop ((node, tree) :: rest) map :=
    projectLoop
      (tl (fst (projectLevel node tree ((node, tree) :: rest) map)))
      (snd (projectLevel node tree ((node, tree) :: rest) map)).
Proof.
  assert (Hstack : forall t st m,
             fst (projectLevel node t st m) = st ++ children node t).
  { induction t as [|[j [|sub]] t' IH]; intros st m; simpl.
    - now rewrite app_nil_r.
    - apply IH.
    - rewrite IH, <- app_assoc. reflexivity. }
  assert (Happ : forall s1 s2,
             stack_size (s1 ++ s2) = stack_size s1 + stack_size s2).
  { induction s1 as [|[n t] s1 IH]; intros s2; simpl; [|rewrite IH]; lia. }
  assert (Hsize : forall t, stack_size (children node t) = tree_size t).
  { induction t as [|[j [|sub]] t' IH]; [reflexivity | exact IH |].
    change (stack_size (children node ((j, MTree sub) :: t')))
      with (S (tree_size sub) + stack_size (children node t')).
    rewrite IH. reflexivity. }
  rewrite Hstack. simpl. rewrite Happ, Hsize. lia.
Qed.
End Flattener.

Definition fieldsProjection (fuel : nat) (info : option GraphQLResolveInfo)
    (options : option FieldsListOptions) : result FieldsProjection :=
  tree <- fieldsMap fuel info options ;;
  Ok (projectLoop (transform_of options) (keepParent options) [("", tree)] []).

(** * Specification vocabulary

    The notions in which the properties below are stated, and the
    examples they are checked on. *)

(** ** Directives *)

(** A directive that bears on inclusion: [include] or [skip]. *)
Definition relevant (d : DirectiveNode) : bool :=
  String.eqb (dir_name d) "include" || String.eqb (dir_name d) "skip".

(** An absent directive list counts as empty, absent bindings as [{}]. *)
Definition directive_list (ds : option (list DirectiveNode)) : list DirectiveNode :=
  match ds with Some l => l | None => [] end.

Definition bindings (vars : option VariablesValues) : VariablesValues :=
  match vars with Some v => v | None => [] end.

(** [@skip(if: b)] and [@include(if: b)]. *)
Definition skip_if (b : bool) : DirectiveNode :=
  mkDirective "skip" (Some [mkArgument "if" (BooleanValue b)]).

Definition include_if (b : bool) : DirectiveNode :=
  mkDirective "include" (Some [mkArgument "if" (BooleanValue b)]).

(** ** Budgets *)

(** [r2] answers wherever [r1] does, and the same. *)
Definition rec_le
    (r1 r2 : list SelectionNode -> MapResult -> SkipValue -> result MapResult)
    : Prop :=
  forall nodes root skip m, r1 nodes root skip = Ok m -> r2 nodes root skip = Ok m.

(** ** Examples of inputs *)

Module Example.
(** The selection [{ a { b c } d }] of a resolver's field [root]. *)
Definition selection : list SelectionNode :=
  [Field "a" None (Some [Field "b" None None; Field "c" None None]);
   Field "d" None None].

Definition info (vars : option VariablesValues) : option GraphQLResolveInfo :=
  Some (mkInfo "root" (Some [mkFieldNode "root" None (Some selection)])
               None [] vars).

(** [{ skip: ['a.c'], withDirectives: true }]. *)
Definition options : option FieldsListOptions :=
  Some (mkOptions None None (Some true) None (Some ["a.c"])).
End Example.

(** Two dictionaries hold the same entries, whatever the order. *)
Definition same_entries {V : Type} (d1 d2 : dict V) : Prop :=
  forall k, lookup k d1 = lookup k d2.

(** ** Entry resolver and branches *)

(** The field-node list the resolver reads: the primary attribute, or the
    legacy one in its absence. *)
Definition field_node_list (info : GraphQLResolveInfo) : option (list FieldNode) :=
  match fieldNodes info with
  | Some nodes => Some nodes
  | None => fieldASTs info
  end.

(** No field is requested: the info object is absent, or it carries no list
    of field nodes, or the node of the current field has no selection set. *)
Inductive NoFieldsRequested : option GraphQLResolveInfo -> Prop :=
| NoInfo : NoFieldsRequested None
| NoFieldNodes info :
    fieldNodes info = None -> fieldASTs info = None ->
    NoFieldsRequested (Some info)
| NoSelectionSet info nodes node :
    field_node_list info = Some nodes ->
    find (fun n => String.eqb (fn_name n) (fieldName info)) nodes = Some node ->
    fn_selectionSet node = None ->
    NoFieldsRequested (Some info).

(** [Resolves tree segments branch]: every segment names a sub-map of the
    map reached so far, and [branch] is the last one. *)
Inductive Resolves : MapResult -> list string -> MapResult -> Prop :=
| Resolves_nil tree : Resolves tree [] tree
| Resolves_cons tree segment rest sub branch :
    lookup segment tree = Some (MTree sub) ->
    Resolves sub rest branch ->
    Resolves tree (segment :: rest) branch.

(** A resolver's info object for the field [root] with the given selection
    set, no fragment and no variable. *)
Definition info_of (selection : list SelectionNode) : option GraphQLResolveInfo :=
  Some (mkInfo "root" (Some [mkFieldNode "root" None (Some selection)])
               None [] None).


(** ** Skip trees and wildcard keys *)





(** The tree of a single pattern without wildcard segments: one key per
    level, the last one marked [true]. *)
Fixpoint chain (segments : list string) (last : string) : SkipTree :=
  match segments with
  | [] => [(last, STrue)]
  | segment :: rest => [(segment, STree (chain rest last))]
  end.



(** ** Keys of the projection *)

Section RecordedKeys.
Variable transform : FieldNamesMap.
Variable keep : bool.

(** The keys written for the value [v] found under the dot-path [node]:
    the renamed path of a leaf, the path itself of a kept parent, and the
    keys written below it. *)
Fixpoint recorded_at (node : string) (v : MapResultKey) : list string :=
  match v with
  | MFalse => [renamed transform node]
  | MTree tree =>
      (if keep then [node] else []) ++
      (fix level (t : list (string * MapResultKey)) : list string :=
         match t with
         | [] => []
         | (j, v') :: rest => recorded_at (toDotNotation node j) v' ++ level rest
         end) tree
  end.

Fixpoint recorded_level (node : string) (tree : MapResult) : list string :=
  match tree with
  | [] => []
  | (j, v) :: rest =>
      recorded_at (toDotNotation node j) v ++ recorded_level node rest
  end.

(** The keys a work list still has to write. *)
Fixpoint pending (stack : list (string * MapResult)) : list string :=
  match stack with
  | [] => []
  | (node, tree) :: rest => recorded_level node tree ++ pending rest
  end.

(** The keys one round writes for the level [tree] under [node]. *)
Fixpoint level_keys (node : string) (tree : MapResult) : list string :=
  match tree with
  | [] => []
  | (j, MFalse) :: rest =>
      renamed transform (toDotNotation node j) :: level_keys node rest
  | (j, MTree _) :: rest =>
      (if keep then [toDotNotation node j] else []) ++ level_keys node rest
  end.
End RecordedKeys.

(** The dot-path of the keys [path], read from the root. *)
Definition dotted (path : list string) : string :=
  fold_left toDotNotation path "".

(** Every entry of the projection holds [1]. *)
Definition all_ones (map : FieldsProjection) : Prop :=
  forall k v, lookup k map = Some v -> v = 1.

Module ParentExample.
(** [{ a { b } c }] with [{ transform: { a: 'x', 'a.b': 'y' },
    keepParentField: true }]. *)
Definition selection : list SelectionNode :=
  [Field "a" None (Some [Field "b" None None]); Field "c" None None].

Definition options : option FieldsListOptions :=
  Some (mkOptions None (Some [("a", "x"); ("a.b", "y")]) None (Some true) None).
End ParentExample.

(** ** Well-formed presence maps and deep predicates on selections *)

(** Every level has one entry per key, and every key satisfies [P]. *)
Inductive WellFormed (P : string -> Prop) : MapResult -> Prop :=
| WellFormed_intro tree :
    NoDup (keys tree) ->
    (forall k v, In (k, v) tree -> P k) ->
    (forall k sub, In (k, MTree sub) tree -> WellFormed P sub) ->
    WellFormed P tree.

(** A predicate on every node of a selection, at any depth. *)
Fixpoint all_nodes (f : SelectionNode -> bool) (node : SelectionNode) : bool :=
  f node &&
  match node with
  | Field _ _ (Some sels) => forallb (all_nodes f) sels
  | Field _ _ None => true
  | FragmentSpread _ _ => true
  | InlineFragment _ sels => forallb (all_nodes f) sels
  end.

Definition all_selections (f : SelectionNode -> bool)
    (sels : list SelectionNode) : bool :=
  forallb (all_nodes f) sels.

Definition all_fragments (f : SelectionNode -> bool) (frs : FragmentItem) : bool :=
  forallb (fun e => all_selections f (frag_selectionSet (snd e))) frs.

(** The recursive calls keep a well-formed map well formed. *)
Definition preserves (f : SelectionNode -> bool) (P : string -> Prop)
    (rec : list SelectionNode -> MapResult -> SkipValue -> result MapResult)
    : Prop :=
  forall nodes root skip m,
    all_selections f nodes = true -> WellFormed P root ->
    rec nodes root skip = Ok m -> WellFormed P m.

(** ** Field names and dot-paths *)

Fixpoint has_dot (s : string) : bool :=
  match s with
  | EmptyString => false
  | String c s' => Ascii.eqb c "."%char || has_dot s'
  end.

(** What the flattener needs of a field name, and what every GraphQL name
    offers: it is not empty and holds no dot. *)
Definition name_ok (s : string) : bool :=
  negb (String.eqb s "") && negb (has_dot s).

Definition GoodName (s : string) : Prop := name_ok s = true.

(** The name of the node, if it has one, is a good name. *)
Definition named_ok (node : SelectionNode) : bool :=
  match node with
  | Field name _ _ => name_ok name
  | FragmentSpread name _ => name_ok name
  | InlineFragment _ _ => true
  end.

(** What may follow a key inside a dot-path: nothing, or a dot and more. *)
Definition Tail (t : string) : Prop :=
  t = "" \/ exists s, t = String "."%char s.

(** [k] is the dot-path [node] or a dot-path below it. *)
Definition Extends (node k : string) : Prop :=
  exists t, k = (node ++ t)%string /\ Tail t.

(** [getNodes] of a field node. *)
Definition selections_of (fieldNode : FieldNode) : list SelectionNode :=
  match fn_selectionSet fieldNode with
  | Some sels => sels
  | None => []
  end.

(** Every name of the fragment table and of the field nodes' selections is a
    good name. *)
Definition info_names_ok (info : option GraphQLResolveInfo) : bool :=
  match info with
  | None => true
  | Some info =>
      all_fragments named_ok (info_fragments info) &&
      forallb (fun fieldNode => all_selections named_ok (selections_of fieldNode))
              (match field_node_list info with
               | Some nodes => nodes
               | None => []
               end)
  end.

(** Distinct keys for every input: whatever the options, the keys written
    into the projection are pairwise distinct. *)
Definition RecordedKeysDistinct : Prop :=
  forall fuel info options tree,
    info_names_ok info = true ->
    fieldsMap fuel info options = Ok tree ->
    NoDup (recorded_level (transform_of options) (keepParent options) "" tree).

Module CollisionExample.
(** [{ a b }] with [{ transform: { a: 'b' } }]. *)
Definition selection : list SelectionNode :=
  [Field "a" None None; Field "b" None None].

Definition options : option FieldsListOptions :=
  Some (mkOptions None (Some [("a", "b")]) None None None).
End CollisionExample.

(** ** Inlining of fragments *)

(** The node carries no directive. *)
Definition no_directives (node : SelectionNode) : bool :=
  match node_directives node with
  | None | Some [] => true
  | Some (_ :: _) => false
  end.

(** The name of a field or of a fragment spread. *)
Inductive Named : SelectionNode -> string -> Prop :=
| Named_field name d ss : Named (Field name d ss) name
| Named_spread name d : Named (FragmentSpread name d) name.

Section Inlining.
Variable frs : FragmentItem.

(** [Requested nodes path]: the key path [path] is reached from the
    selection [nodes] once every inline fragment and every name of the
    fragment table is replaced by its selection. *)
Inductive Requested : list SelectionNode -> list string -> Prop :=
| Requested_inline nodes d sels path :
    In (InlineFragment d sels) nodes ->
    Requested sels path ->
    Requested nodes path
| Requested_spread nodes node name fragment path :
    In node nodes -> Named node name ->
    lookup name frs = Some fragment ->
    Requested (frag_selectionSet fragment) path ->
    Requested nodes path
| Requested_field nodes node name :
    In node nodes -> Named node name ->
    lookup name frs = None ->
    Requested nodes [name]
| Requested_below nodes node name path :
    In node nodes -> Named node name ->
    lookup name frs = None ->
    Requested (getNodes node) path ->
    Requested nodes (name :: path).

(** The inlining of [nodes] ends: no fragment leads back to itself. *)
Inductive Finite : list SelectionNode -> Prop :=
| Finite_nil : Finite []
| Finite_inline d sels rest :
    Finite sels -> Finite rest -> Finite (InlineFragment d sels :: rest)
| Finite_spread node name fragment rest :
    Named node name -> lookup name frs = Some fragment ->
    Finite (frag_selectionSet fragment) -> Finite rest ->
    Finite (node :: rest)
| Finite_field node name rest :
    Named node name -> lookup name frs = None ->
    Finite (getNodes node) -> Finite rest ->
    Finite (node :: rest).
End Inlining.

(** [InMap path m]: the keys of [path] lead through sub-maps of [m] to an
    entry. *)
Fixpoint InMap (path : list string) (m : MapResult) : Prop :=
  match path with
  | [] => False
  | k :: rest =>
      match rest with
      | [] => lookup k m <> None
      | _ :: _ =>
          match lookup k m with
          | Some (MTree sub) => InMap rest sub
          | _ => False
          end
      end
  end.

(** A skip scope under which nothing is skipped. *)
Definition Inert (skip : SkipValue) : Prop :=
  skip = SFalse \/ skip = STree [].

(** Without directives and under an inert skip scope, the recursive calls
    add to the map the key paths requested by the nodes. *)
Definition describes (opts : TraverseOptions)
    (rec : list SelectionNode -> MapResult -> SkipValue -> result MapResult)
    : Prop :=
  forall nodes root skip m,
    all_selections no_directives nodes = true -> Inert skip ->
    rec nodes root skip = Ok m ->
    forall path,
      InMap path m <-> InMap path root \/ Requested (fragments opts) nodes path.

(** [Inlined frs nodes path]: the key path [path] is reached from [nodes]
    once every inline fragment and every fragment spread is replaced by its
    selection; a field stays a field whatever its name. *)
Inductive Inlined (frs : FragmentItem) : list SelectionNode -> list string -> Prop :=
| Inlined_inline nodes d sels path :
    In (InlineFragment d sels) nodes ->
    Inlined frs sels path ->
    Inlined frs nodes path
| Inlined_spread nodes name d fragment path :
    In (FragmentSpread name d) nodes ->
    lookup name frs = Some fragment ->
    Inlined frs (frag_selectionSet fragment) path ->
    Inlined frs nodes path
| Inlined_field nodes name d ss :
    In (Field name d ss) nodes ->
    Inlined frs nodes [name]
| Inlined_below nodes name d ss path :
    In (Field name d ss) nodes ->
    Inlined frs (getNodes (Field name d ss)) path ->
    Inlined frs nodes (name :: path).

(** The name of the node tells its kind: no field is named like a fragment
    of the table, and every spread names one. *)
Definition kind_by_name (frs : FragmentItem) (node : SelectionNode) : bool :=
  match node with
  | Field name _ _ =>
      match lookup name frs with None => true | Some _ => false end
  | FragmentSpread name _ =>
      match lookup name frs with Some _ => true | None => false end
  | InlineFragment _ _ => true
  end.

(** Derives [Finite] for a closed selection. *)
Ltac finite_inlining :=
  repeat first
    [ apply Finite_nil
    | eapply Finite_inline
    | eapply Finite_spread; [constructor | reflexivity | | ]
    | eapply Finite_field; [constructor | reflexivity | | ] ].

Module InliningExample.
(** [fragment F on T { a { c } b }] and the selection
    [{ a { x } ...F ... on T { a b } }]. *)
Definition table : FragmentItem :=
  [("F", mkFragment [Field "a" None (Some [Field "c" None None]);
                     Field "b" None None])].

Definition selection : list SelectionNode :=
  [Field "a" None (Some [Field "x" None None]);
   FragmentSpread "F" None;
   InlineFragment None [Field "a" None None; Field "b" None None]].

Definition opts : TraverseOptions := mkTraverseOptions table None true.
End InliningExample.

Module ClashExample.
(** [fragment user on User { name }] and the selection
    [{ user { ...user } }]: the field and the fragment share a name. *)
Definition table : FragmentItem :=
  [("user", mkFragment [Field "name" None None])].

Definition selection : list SelectionNode :=
  [Field "user" None (Some [FragmentSpread "user" None])].

Definition opts : TraverseOptions := mkTraverseOptions table None true.
End ClashExample.

(** Inlining for every input: without directives and skip rules, the key
    paths of the walker's map are those of the inlined selection. *)
Definition PresenceMapIsInlining : Prop :=
  forall opts nodes fuel m,
    all_selections no_directives nodes = true ->
    all_fragments no_directives (fragments opts) = true ->
    traverse fuel opts nodes [] (STree []) = Ok m ->
    forall path, InMap path m <-> Inlined (fragments opts) nodes path.

(** ** The walker under directives and skip rules *)

(** The directive check of [traverse] lets the node through. *)
Definition permitted (opts : TraverseOptions) (node : SelectionNode) : bool :=
  negb (withVars opts && negb (verifyDirectives (node_directives node) (vars opts))).

(** [Selected opts skip nodes path]: the key path [path] is reached from
    [nodes] through permitted nodes only, fragments being entered under
    the same skip scope, and every field on the way resolving in its scope
    to something else than [true]. *)
Inductive Selected (opts : TraverseOptions)
    : SkipValue -> list SelectionNode -> list string -> Prop :=
| Selected_inline skip nodes d sels path :
    In (InlineFragment d sels) nodes ->
    permitted opts (InlineFragment d sels) = true ->
    Selected opts skip sels path ->
    Selected opts skip nodes path
| Selected_fragment skip nodes node name fragment path :
    In node nodes -> permitted opts node = true -> Named node name ->
    lookup name (fragments opts) = Some fragment ->
    Selected opts skip (frag_selectionSet fragment) path ->
    Selected opts skip nodes path
| Selected_field skip nodes node name :
    In node nodes -> permitted opts node = true -> Named node name ->
    lookup name (fragments opts) = None ->
    verifySkip name skip <> STrue ->
    Selected opts skip nodes [name]
| Selected_below skip nodes node name path :
    In node nodes -> permitted opts node = true -> Named node name ->
    lookup name (fragments opts) = None ->
    verifySkip name skip <> STrue ->
    Selected opts (verifySkip name skip) (getNodes node) path ->
    Selected opts skip nodes (name :: path).

(** The recursive calls add to the map the selected key paths. *)
Definition selects (opts : TraverseOptions)
    (rec : list SelectionNode -> MapResult -> SkipValue -> result MapResult)
    : Prop :=
  forall nodes root skip m,
    rec nodes root skip = Ok m ->
    forall path,
      InMap path m <-> InMap path root \/ Selected opts skip nodes path.

(** The options of the walk that [fieldsMap] starts for [info]. *)
Definition walk_options (info : GraphQLResolveInfo)
    (options : option FieldsListOptions) : TraverseOptions :=
  mkTraverseOptions (info_fragments info) (variableValues info)
                    (truthy (withDirectives (parseOptions options))).

(** The skip patterns [fieldsMap] compiles: [skip || []]. *)
Definition skip_patterns (options : option FieldsListOptions) : list string :=
  match skip (parseOptions options) with
  | Some patterns => patterns
  | None => []
  end.

(** [options] with the skip patterns removed. *)
Definition without_skip (options : FieldsListOptions) : FieldsListOptions :=
  mkOptions (path options) (transform options) (withDirectives options)
            (keepParentField options) None.

(** [options] with [withDirectives: false]. *)
Definition without_directives (options : FieldsListOptions) : FieldsListOptions :=
  mkOptions (path options) (transform options) (Some false)
            (keepParentField options) (skip options).

(** [path] begins with the keys [prefix]. *)
Definition Prefixed (prefix path : list string) : Prop :=
  exists rest, path = prefix ++ rest.

(** ** A single skip pattern *)

(** What is left of a wildcard-free pattern on the way down: its remaining
    segments and its last one, or [None] once a field off the pattern was
    entered. *)
Definition pattern_scope (p : option (list string * string)) : SkipValue :=
  match p with
  | None => SFalse
  | Some (segments, last) => STree (chain segments last)
  end.

Definition blocks (p : option (list string * string)) (path : list string) : Prop :=
  match p with
  | None => False
  | Some (segments, last) => Prefixed (segments ++ [last]) path
  end.

Definition star_free (p : option (list string * string)) : Prop :=
  match p with
  | None => True
  | Some (segments, last) =>
      Forall (fun s => has_star s = false) (segments ++ [last])
  end.

(** ** Leaves of a presence map *)

(** [LeafAt tree path]: the keys of [path] lead through sub-maps of [tree]
    to an entry that holds [false]. *)
Inductive LeafAt : MapResult -> list string -> Prop :=
| LeafAt_here tree j :
    lookup j tree = Some MFalse -> LeafAt tree [j]
| LeafAt_below tree j sub path :
    lookup j tree = Some (MTree sub) -> LeafAt sub path ->
    LeafAt tree (j :: path).

(** The name of the node, if it has one, satisfies [Q]. *)
Definition named_sat (Q : string -> bool) (node : SelectionNode) : bool :=
  match node with
  | Field name _ _ => Q name
  | FragmentSpread name _ => Q name
  | InlineFragment _ _ => true
  end.

(** Every name of the fragment table and of the field nodes' selections
    satisfies [Q]. *)
Definition info_names_sat (Q : string -> bool)
    (info : option GraphQLResolveInfo) : bool :=
  match info with
  | None => true
  | Some info =>
      all_fragments (named_sat Q) (info_fragments info) &&
      forallb (fun fieldNode => all_selections (named_sat Q) (selections_of fieldNode))
              (match field_node_list info with
               | Some nodes => nodes
               | None => []
               end)
  end.

(** ** Variations of the inputs *)

(** [info] with other variable values. *)
Definition with_variables (info : GraphQLResolveInfo)
    (values : option VariablesValues) : GraphQLResolveInfo :=
  mkInfo (fieldName info) (fieldNodes info) (fieldASTs info)
         (info_fragments info) values.

(** The argument is a boolean literal or a variable. *)
Definition boolean_or_variable (arg : ArgumentNode) : bool :=
  match arg_value arg with
  | BooleanValue _ => true
  | Variable_ _ => true
  | OtherValue => false
  end.

(** ** Own keys and inherited members

    A read [obj[key]] of a plain JS object finds, besides the own keys of
    the object, the members it inherits from [Object.prototype].  [lookup]
    reads own keys; it is the read of the code for every key that names no
    inherited member.  The properties that depend on such reads are stated
    for these keys: the names of the fields, spreads and variables of the
    query, the segments of the [path] option and of the skip patterns, and
    the keys and values of the transform table. *)

Definition prototype_members : list string :=
  ["constructor"; "hasOwnProperty"; "isPrototypeOf"; "propertyIsEnumerable";
   "toLocaleString"; "toString"; "valueOf"; "__proto__"; "__defineGetter__";
   "__defineSetter__"; "__lookupGetter__"; "__lookupSetter__"].

(** The key names no member of [Object.prototype]. *)
Definition own_only (key : string) : bool :=
  negb (existsb (String.eqb key) prototype_members).

(** The characters of a GraphQL name: [_A-Za-z] first, [_0-9A-Za-z] next. *)
Definition name_start (c : ascii) : bool :=
  let n := nat_of_ascii c in
  (Nat.leb 65 n && Nat.leb n 90) || (Nat.leb 97 n && Nat.leb n 122)
  || Nat.eqb n 95.

Definition name_char (c : ascii) : bool :=
  let n := nat_of_ascii c in
  name_start c || (Nat.leb 48 n && Nat.leb n 57).

Fixpoint all_chars (f : ascii -> bool) (s : string) : bool :=
  match s with
  | EmptyString => true
  | String c s' => f c && all_chars f s'
  end.

Definition graphql_name (s : string) : bool :=
  match s with
  | EmptyString => false
  | String c s' => name_start c && all_chars name_char s'
  end.

(** A GraphQL name that names no inherited member. *)
Definition field_name (s : string) : bool := graphql_name s && own_only s.

(** The variables an argument and a directive refer to name no inherited
    member. *)
Definition argument_safe (arg : ArgumentNode) : bool :=
  match arg_value arg with
  | Variable_ v => own_only v
  | _ => true
  end.

Definition directive_safe (d : DirectiveNode) : bool :=
  forallb argument_safe
          (match dir_arguments d with Some args => args | None => [] end).

Definition node_safe (node : SelectionNode) : bool :=
  named_sat field_name node
  && forallb directive_safe (directive_list (node_directives node)).

(** The walk reads own keys only: the names of the nodes and of the
    fragment table, the variables of their directives and the bound
    variables. *)
Definition walk_safe (opts : TraverseOptions) (nodes : list SelectionNode) : bool :=
  all_selections node_safe nodes
  && all_fragments node_safe (fragments opts)
  && forallb own_only (keys (bindings (vars opts))).

Definition info_safe (info : option GraphQLResolveInfo) : bool :=
  match info with
  | None => true
  | Some info =>
      all_fragments node_safe (info_fragments info)
      && forallb (fun fieldNode => all_selections node_safe (selections_of fieldNode))
                 (match field_node_list info with
                  | Some nodes => nodes
                  | None => []
                  end)
      && forallb own_only (keys (bindings (variableValues info)))
  end.

(** A segment made of name characters and stars: the source of its regular
    expression holds no other character with a meaning of its own. *)
Definition plain_segment (s : string) : bool :=
  all_chars (fun c => name_char c || Ascii.eqb c "*"%char) s.

Definition pattern_safe (pattern : string) : bool :=
  forallb (fun s => own_only s && plain_segment s) (split_dot pattern).

Definition path_safe (path : option string) : bool :=
  match path with
  | None => true
  | Some p => forallb own_only (split_dot p)
  end.

Definition transform_safe (transform : FieldNamesMap) : bool :=
  forallb (fun e => own_only (fst e) && own_only (snd e)) transform.

Definition options_safe (options : option FieldsListOptions) : bool :=
  match options with
  | None => true
  | Some o =>
      path_safe (path o)
      && forallb pattern_safe (match skip o with Some l => l | None => [] end)
      && transform_safe (match transform o with Some t => t | None => [] end)
  end.

(** The wildcard keys of one level of a skip scope, and of every level,
    are plain. *)
Definition scope_keys_plain (tree : SkipTree) : bool :=
  forallb (fun k => negb (has_star k) || plain_segment k) (keys tree).

Fixpoint skip_plain (v : SkipValue) : bool :=
  match v with
  | STree tree =>
      (fix level (t : list (string * SkipValue)) : bool :=
         match t with
         | [] => true
         | (k, v') :: rest =>
             (negb (has_star k) || plain_segment k) && skip_plain v' && level rest
         end) tree
  | _ => true
  end.

(** ** Recorded paths before renaming *)

Section MarkedPaths.
Variable keep : bool.

(** The dot-paths written for the value [v] found under [node], each
    marked [true] when it is the path of a leaf and [false] when it is the
    path of a kept parent. *)
Fixpoint marked_at (node : string) (v : MapResultKey) : list (string * bool) :=
  match v with
  | MFalse => [(node, true)]
  | MTree tree =>
      (if keep then [(node, false)] else []) ++
      (fix level (t : list (string * MapResultKey)) : list (string * bool) :=
         match t with
         | [] => []
         | (j, v') :: rest => marked_at (toDotNotation node j) v' ++ level rest
         end) tree
  end.

Fixpoint marked_level (node : string) (tree : MapResult) : list (string * bool) :=
  match tree with
  | [] => []
  | (j, v) :: rest =>
      marked_at (toDotNotation node j) v ++ marked_level node rest
  end.
End MarkedPaths.

(** The key a recorded path is written under: the table is read for leaf
    paths only. *)
Definition final_key (transform : FieldNamesMap) (e : string * bool) : string :=
  if snd e then renamed transform (fst e) else fst e.

(** The table gives no two recorded paths the same key. *)
Definition collision_free (transform : FieldNamesMap)
    (recorded : list (string * bool)) : Prop :=
  forall e1 e2,
    In e1 recorded -> In e2 recorded ->
    final_key transform e1 = final_key transform e2 -> fst e1 = fst e2.

(** * Properties *)

(** ** Dictionaries *)

Section DictFacts.
Context {V : Type}.
Implicit Types (d : dict V) (k : string) (v : V).

Lemma lookup_set_same k v d : lookup k (set k v d) = Some v.
Proof.
  induction d as [|[k' v'] d IH]; simpl.
  - now rewrite String.eqb_refl.
  - destruct (String.eqb k k') eqn:E; simpl; rewrite E; auto.
Qed.

Lemma lookup_set_other k k' v d :
  k <> k' -> lookup k (set k' v d) = lookup k d.
Proof.
  intros Hne. induction d as [|[k0 v0] d IH]; simpl.
  - destruct (String.eqb_spec k k'); congruence.
  - destruct (String.eqb_spec k' k0) as [->|Hk]; simpl.
    + destruct (String.eqb_spec k k0); congruence.
    + destruct (String.eqb_spec k k0); auto.
Qed.

Lemma lookup_None_keys k d : lookup k d = None <-> ~ In k (keys d).
Proof.
  induction d as [|[k' v'] d IH]; simpl.
  - tauto.
  - destruct (String.eqb_spec k k') as [->|Hk].
    + split; [discriminate | intros H; exfalso; apply H; now left].
    + rewrite IH. split.
      * intros H [E|HIn]; [congruence | auto].
      * intros H HIn. apply H. now right.
Qed.

Lemma lookup_In k v d : lookup k d = Some v -> In (k, v) d.
Proof.
  induction d as [|[k' v'] d IH]; simpl; [discriminate|].
  destruct (String.eqb_spec k k') as [->|Hk].
  - intros [= ->]. now left.
  - intros H. right. auto.
Qed.

(** Writing to a new key appends; writing to a present key keeps the keys. *)
Lemma set_absent k v d : lookup k d = None -> set k v d = d ++ [(k, v)].
Proof.
  induction d as [|[k' v'] d IH]; simpl; [reflexivity|].
  destruct (String.eqb k k'); [discriminate|].
  intros H. now rewrite IH.
Qed.

Lemma keys_set_present k v d :
  lookup k d <> None -> keys (set k v d) = keys d.
Proof.
  induction d as [|[k' v'] d IH]; simpl; [congruence|].
  destruct (String.eqb k k'); simpl; [reflexivity|].
  intros H. now rewrite IH.
Qed.

Lemma keys_set k v d :
  keys (set k v d) = keys d \/
  (lookup k d = None /\ keys (set k v d) = keys d ++ [k]).
Proof.
  destruct (lookup k d) eqn:E.
  - left. apply keys_set_present. congruence.
  - right. split; [reflexivity|]. rewrite set_absent by assumption.
    unfold keys. now rewrite map_app.
Qed.

Lemma NoDup_keys_set k v d : NoDup (keys d) -> NoDup (keys (set k v d)).
Proof.
  intros Hnd. destruct (keys_set k v d) as [->|[Hnone ->]]; [assumption|].
  apply lookup_None_keys in Hnone.
  apply NoDup_rev in Hnd. rewrite <- (rev_involutive (keys d ++ [k])).
  apply NoDup_rev. rewrite rev_app_distr. simpl. constructor; [|assumption].
  now rewrite <- in_rev.
Qed.


Lemma set_set k v v' d : set k v (set k v' d) = set k v d.
Proof.
  induction d as [|[k0 v0] d IH]; simpl.
  - now rewrite String.eqb_refl.
  - destruct (String.eqb k k0) eqn:E; simpl; rewrite E; [reflexivity|].
    now rewrite IH.
Qed.
End DictFacts.

(** ** The outcome monad *)

Lemma bind_Ok {A B : Type} (r : result A) (k : A -> result B) (b : B) :
  bind r k = Ok b -> exists a, r = Ok a /\ k a = Ok b.
Proof.
  destruct r; simpl; try discriminate. intros H. eauto.
Qed.

(** ** Directive evaluator (C5) *)

Lemma verifyDirective_irrelevant d vars :
  relevant d = false -> verifyDirective d vars = true.
Proof.
  unfold relevant, verifyDirective. intros ->. reflexivity.
Qed.

Lemma verifyDirectives_forallb ds vars :
  verifyDirectives ds vars
  = forallb (fun d => verifyDirective d (bindings vars)) (directive_list ds).
Proof.
  destruct ds as [[|d ds]|]; reflexivity.
Qed.

(** C5: a node is included exactly when every directive named [skip] or
    [include] of its list permits it on its own (a conjunction over the
    list, other names never reject); hence a list that holds
    [@skip(if: true)] excludes the node whatever else it holds, in
    particular next to [@include(if: true)], in either order. *)
Theorem verifyDirectives_conjunction :
  forall (ds : option (list DirectiveNode)) (vars : option VariablesValues),
    (verifyDirectives ds vars = true <->
     forall d, In d (directive_list ds) -> relevant d = true ->
               verifyDirective d (bindings vars) = true)
    /\ (In (skip_if true) (directive_list ds) -> verifyDirectives ds vars = false)
    /\ verifyDirectives (Some [skip_if true; include_if true]) vars = false
    /\ verifyDirectives (Some [include_if true; skip_if true]) vars = false.
Proof.
  intros ds vars.
  assert (Hiff : verifyDirectives ds vars = true <->
     forall d, In d (directive_list ds) -> relevant d = true ->
               verifyDirective d (bindings vars) = true).
  { rewrite verifyDirectives_forallb, forallb_forall. split.
    - intros H d HIn _. now apply H.
    - intros H d HIn. destruct (relevant d) eqn:R.
      + now apply H.
      + now apply verifyDirective_irrelevant. }
  split; [exact Hiff|]. split; [|split; destruct vars; reflexivity].
  intros HIn. apply not_true_is_false. intros E.
  destruct Hiff as [Hall _].
  specialize (Hall E (skip_if true) HIn eq_refl). discriminate Hall.
Qed.

(** ** The walker's budget

    A larger budget never changes an answer. *)

Lemma traverse_named_mono r1 r2 opts name nodes root skip m :
  rec_le r1 r2 ->
  traverse_named r1 opts name nodes root skip = Ok m ->
  traverse_named r2 opts name nodes root skip = Ok m.
Proof.
  intros Hle. unfold traverse_named.
  destruct (lookup name (fragments opts)); [apply Hle|].
  destruct (verifySkip name skip) eqn:Es; auto;
    destruct nodes as [|n ns]; auto;
    destruct (lookup name root) as [[|sub]|]; simpl; auto;
    intros H; apply bind_Ok in H as (c & Hc & Hm);
    apply Hle in Hc; rewrite Hc; exact Hm.
Qed.

Lemma traverse_node_mono r1 r2 opts node root skip m :
  rec_le r1 r2 ->
  traverse_node r1 opts node root skip = Ok m ->
  traverse_node r2 opts node root skip = Ok m.
Proof.
  intros Hle. unfold traverse_node.
  destruct (withVars opts && negb (verifyDirectives (node_directives node) (vars opts)));
    [auto|].
  destruct node as [name d ss|name d|d sels].
  - now apply traverse_named_mono.
  - now apply traverse_named_mono.
  - destruct (is_nil sels); [auto | apply Hle].
Qed.

Lemma traverse_loop_mono r1 r2 opts nodes root skip m :
  rec_le r1 r2 ->
  traverse_loop r1 opts nodes root skip = Ok m ->
  traverse_loop r2 opts nodes root skip = Ok m.
Proof.
  intros Hle. revert root.
  induction nodes as [|node rest IH]; intros root; simpl; [auto|].
  intros H. apply bind_Ok in H as (root' & Hn & Hrest).
  eapply traverse_node_mono in Hn; [|exact Hle]. rewrite Hn. simpl. auto.
Qed.

Lemma traverse_step fuel opts : rec_le (traverse fuel opts) (traverse (S fuel) opts).
Proof.
  induction fuel as [|fuel IH]; intros nodes root skip m; [discriminate|].
  intros H. change (traverse_loop (traverse (S fuel) opts) opts nodes root skip = Ok m).
  apply traverse_loop_mono with (r1 := traverse fuel opts); assumption.
Qed.

Lemma traverse_mono fuel fuel' opts nodes root skip m :
  fuel <= fuel' ->
  traverse fuel opts nodes root skip = Ok m ->
  traverse fuel' opts nodes root skip = Ok m.
Proof.
  induction 1 as [|fuel' Hle IH]; [auto|].
  intros H. apply traverse_step. auto.
Qed.

Lemma fieldsMap_mono fuel fuel' info options m :
  fuel <= fuel' ->
  fieldsMap fuel info options = Ok m ->
  fieldsMap fuel' info options = Ok m.
Proof.
  intros Hle. unfold fieldsMap.
  destruct (verifyInfo info) as [fieldNode|]; [|auto].
  destruct info as [info|]; [|auto].
  intros H. apply bind_Ok in H as (rules & -> & H). simpl.
  apply bind_Ok in H as (tree & Ht & H).
  eapply traverse_mono in Ht; [|exact Hle]. rewrite Ht. exact H.
Qed.

Lemma fieldsProjection_mono fuel fuel' info options m :
  fuel <= fuel' ->
  fieldsProjection fuel info options = Ok m ->
  fieldsProjection fuel' info options = Ok m.
Proof.
  intros Hle. unfold fieldsProjection. intros H.
  apply bind_Ok in H as (tree & Ht & H).
  eapply fieldsMap_mono in Ht; [|exact Hle]. now rewrite Ht.
Qed.

(** ** The worked example (C2) *)

(** C2: for the selection [{ a { b c } d }] with skip patterns [["a.c"]] and
    directive-awareness on, [fieldsMap] returns [{ a: { b: false }, d: false }]
    and [fieldsProjection] returns the entries ["a.b": 1] and ["d": 1] (the
    leaf [d] of the first level is written before [a.b]). *)
Theorem example_map_and_projection :
  forall (fuel : nat) (vars : option VariablesValues),
    2 <= fuel ->
    fieldsMap fuel (Example.info vars) Example.options
    = Ok [("a", MTree [("b", MFalse)]); ("d", MFalse)]
    /\ fieldsProjection fuel (Example.info vars) Example.options
       = Ok [("d", 1); ("a.b", 1)]
    /\ same_entries [("d", 1); ("a.b", 1)] [("a.b", 1); ("d", 1)].
Proof.
  intros fuel vars Hfuel. split; [|split].
  - apply fieldsMap_mono with (fuel := 2); [assumption | reflexivity].
  - apply fieldsProjection_mono with (fuel := 2); [assumption | reflexivity].
  - intros k. simpl.
    destruct (String.eqb_spec k "d") as [->|Hd]; [reflexivity|].
    destruct (String.eqb_spec k "a.b"); reflexivity.
Qed.

Lemma example_map_and_projection_witness :
  fieldsMap 3 (Example.info None) Example.options
  = Ok [("a", MTree [("b", MFalse)]); ("d", MFalse)]
  /\ fieldsProjection 3 (Example.info None) Example.options
     = Ok [("d", 1); ("a.b", 1)]
  /\ same_entries [("d", 1); ("a.b", 1)] [("a.b", 1); ("d", 1)].
Proof.
  apply (@example_map_and_projection 3 None). lia.
Defined.

(** ** Entry resolver (C6) *)

Lemma verifyInfo_NoFieldsRequested info :
  NoFieldsRequested info -> verifyInfo info = None.
Proof.
  intros [|i Hn Ha|i nodes node Hl Hf Hs]; simpl.
  - reflexivity.
  - now rewrite Hn, Ha.
  - unfold field_node_list in Hl.
    destruct (fieldNodes i) as [l|]; [injection Hl as -> | rewrite Hl];
      unfold verifyFieldNode; now rewrite Hf, Hs.
Qed.

Section FlattenerFacts.
Variable transform : FieldNamesMap.
Variable keep : bool.

Lemma projectLevel_stack node tree stack map :
  fst (projectLevel transform keep node tree stack map)
  = stack ++ children node tree.
Proof.
  revert stack map.
  induction tree as [|[j [|sub]] rest IH]; intros stack map; simpl.
  - now rewrite app_nil_r.
  - apply IH.
  - rewrite IH, <- app_assoc. reflexivity.
Qed.

(** One round of the [while] loop. *)
Lemma projectLoop_round node tree rest map :
  projectLoop transform keep ((node, tree) :: rest) map
  = projectLoop transform keep (rest ++ children node tree)
      (snd (projectLevel transform keep node tree ((node, tree) :: rest) map)).
Proof.
  rewrite projectLoop_equation_2, projectLevel_stack. reflexivity.
Qed.
End FlattenerFacts.

(** C6: when no field is requested, the three public operations return
    empty results and raise nothing, for every budget and every options
    value (the skip patterns are not even compiled). *)
Theorem no_fields_requested_empty :
  forall (fuel : nat) (info : option GraphQLResolveInfo)
         (options : option FieldsListOptions),
    NoFieldsRequested info ->
    fieldsMap fuel info options = Ok []
    /\ fieldsList fuel info options = Ok []
    /\ fieldsProjection fuel info options = Ok [].
Proof.
  intros fuel info options H.
  assert (Hmap : forall options, fieldsMap fuel info options = Ok []).
  { intros o. unfold fieldsMap. now rewrite (verifyInfo_NoFieldsRequested H). }
  split; [apply Hmap|]. unfold fieldsList, fieldsProjection.
  rewrite !Hmap. simpl. split; [reflexivity|].
  rewrite projectLoop_round. simpl. now rewrite projectLoop_equation_1.
Qed.

Lemma no_fields_requested_empty_witness :
  (NoFieldsRequested None
   /\ NoFieldsRequested (Some (mkInfo "user" None None [] None))
   /\ NoFieldsRequested
        (Some (mkInfo "name" None (Some [mkFieldNode "name" None None]) [] None)))
  /\ fieldsMap 0
       (Some (mkInfo "name" None (Some [mkFieldNode "name" None None]) [] None))
       (Some (mkOptions None None None None (Some ["a"; "a.b"])))
     = Ok []
  /\ fieldsList 0
       (Some (mkInfo "name" None (Some [mkFieldNode "name" None None]) [] None))
       (Some (mkOptions None None None None (Some ["a"; "a.b"])))
     = Ok []
  /\ fieldsProjection 0
       (Some (mkInfo "name" None (Some [mkFieldNode "name" None None]) [] None))
       (Some (mkOptions None None None None (Some ["a"; "a.b"])))
     = Ok [].
Proof.
  assert (H : NoFieldsRequested
        (Some (mkInfo "name" None (Some [mkFieldNode "name" None None]) [] None))).
  { eapply NoSelectionSet; reflexivity. }
  split.
  - split; [constructor | split; [now constructor | exact H]].
  - exact (@no_fields_requested_empty 0 _ _ H).
Defined.

(** ** Branch extractor *)

Lemma branchLoop_Resolves tree segments branch :
  Resolves tree segments branch -> branchLoop segments tree = branch.
Proof.
  induction 1 as [|tree segment rest sub branch Hl _ IH]; simpl.
  - reflexivity.
  - now rewrite Hl.
Qed.

Lemma branchLoop_stops tree before segment after current :
  Resolves tree before current ->
  lookup segment current = None \/ lookup segment current = Some MFalse ->
  branchLoop (before ++ segment :: after) tree = [].
Proof.
  induction 1 as [|tree s rest sub branch Hl _ IH]; simpl; intros Hstop.
  - now destruct Hstop as [-> | ->].
  - rewrite Hl. auto.
Qed.

Lemma getBranch_path tree path :
  path <> "" -> getBranch tree (Some path) = branchLoop (split_dot path) tree.
Proof.
  destruct path; [congruence | reflexivity].
Qed.

(** X19: without a path, or with the empty path, the whole map is returned;
    otherwise the path is split on dots and walked: the walk answers the
    empty map at the first segment that the current map holds as [false],
    or lacks when the segment names no inherited member, and the branch
    reached when every segment names a sub-map.  ["x.y"] on a map without
    [x] gives the empty map. *)
Theorem getBranch_total :
  forall tree : MapResult,
    getBranch tree None = tree
    /\ getBranch tree (Some "") = tree
    /\ (forall path before segment after current,
          path <> "" ->
          split_dot path = before ++ segment :: after ->
          Resolves tree before current ->
          (lookup segment current = None /\ own_only segment = true)
          \/ lookup segment current = Some MFalse ->
          getBranch tree (Some path) = [])
    /\ (forall path branch,
          path <> "" ->
          Resolves tree (split_dot path) branch ->
          getBranch tree (Some path) = branch)
    /\ (lookup "x" tree = None -> getBranch tree (Some "x.y") = []).
Proof.
  intros tree. split; [reflexivity|]. split; [reflexivity|].
  split; [|split].
  - intros path before segment after current Hne Hsplit Hres Hstop.
    rewrite getBranch_path, Hsplit by assumption.
    eapply branchLoop_stops; [eassumption|]. tauto.
  - intros path branch Hne Hres. rewrite getBranch_path by assumption.
    now apply branchLoop_Resolves.
  - intros Hx. unfold getBranch. simpl. now rewrite Hx.
Qed.

Lemma getBranch_total_witness :
  let tree := [("a", MTree [("b", MFalse); ("c", MTree [("d", MFalse)])])] in
  getBranch tree (Some "a.b.z") = []
  /\ getBranch tree (Some "a.c") = [("d", MFalse)]
  /\ getBranch tree (Some "x.y") = [].
Proof.
  intros tree.
  destruct (getBranch_total tree) as (_ & _ & Hstop & Hres & Hxy).
  split; [|split].
  - apply (Hstop "a.b.z" ["a"] "b" ["z"] [("b", MFalse); ("c", MTree [("d", MFalse)])]).
    + discriminate.
    + reflexivity.
    + econstructor; [reflexivity | constructor].
    + right. reflexivity.
  - apply (Hres "a.c"); [discriminate|].
    econstructor; [reflexivity|]. econstructor; [reflexivity | constructor].
  - apply Hxy. reflexivity.
Defined.

(** ** Skip-scope resolution (C3) *)

Lemma scanPatterns_true node skip pattern patterns nodeTree :
  In pattern patterns ->
  lookup pattern skip = Some STrue ->
  rx_test (RegExp (replace_RX_AST pattern)) node = true ->
  scanPatterns node skip patterns nodeTree = STrue.
Proof.
  intros HIn Hl Hm. revert nodeTree.
  induction patterns as [|p rest IH]; intros nodeTree; [contradiction|].
  simpl. destruct HIn as [->|HIn].
  - now rewrite Hm, Hl.
  - destruct (rx_test (RegExp (replace_RX_AST p)) node); [|auto].
    destruct (lookup p skip) as [[| |sub]|]; auto.
Qed.

Lemma lookup_Some_keys {V : Type} k (v : V) d : lookup k d = Some v -> In k (keys d).
Proof.
  intros H. apply lookup_In in H. change k with (fst (k, v)). now apply in_map.
Qed.

Lemma verifySkip_wildcard_true node tree pattern :
  lookup node tree = None \/ lookup node tree = Some SFalse ->
  lookup pattern tree = Some STrue ->
  has_star pattern = true ->
  rx_test (RegExp (replace_RX_AST pattern)) node = true ->
  verifySkip node (STree tree) = STrue.
Proof.
  intros Hn Hp Hs Hm. unfold verifySkip.
  assert (Hscan : scanPatterns node tree (filter has_star (keys tree)) SFalse = STrue).
  { apply scanPatterns_true with (pattern := pattern); try assumption.
    apply filter_In. split; [|assumption]. eapply lookup_Some_keys; eassumption. }
  now destruct Hn as [-> | ->].
Qed.

(** The regular expression [.*] matches inside every string. *)
Lemma rx_test_any_star node : rx_test [RxStar RxAny] node = true.
Proof.
  destruct node; reflexivity.
Qed.



(** ** Skip-pattern compiler (C4) *)


Lemma skipProps_fresh_inner prop next rest :
  next <> "*" ->
  skipProps (prop :: next :: rest) []
  = bind (skipProps (next :: rest) []) (fun sub' => Ok [(prop, STree sub')]).
Proof.
  intros Hnext. apply String.eqb_neq in Hnext.
  cbn [skipProps lookup]. rewrite Hnext. reflexivity.
Qed.

Lemma skipProps_chain segments last :
  Forall (fun s => s <> "*") (segments ++ [last]) ->
  skipProps (segments ++ [last]) [] = Ok (chain segments last)
  /\ skipProps (segments ++ [last; "*"]) [] = Ok (chain segments last).
Proof.
  induction segments as [|segment rest IH]; intros Hall.
  - split; reflexivity.
  - inversion Hall as [|? ? _ Hrest]; subst. destruct (IH Hrest) as [IH1 IH2].
    destruct rest as [|next rest']; simpl app in *.
    + inversion Hrest; subst.
      split; rewrite skipProps_fresh_inner by assumption;
        [rewrite IH1 | rewrite IH2]; reflexivity.
    + inversion Hrest; subst.
      split; rewrite skipProps_fresh_inner by assumption;
        [rewrite IH1 | rewrite IH2]; reflexivity.
Qed.




(** ** Wildcard keys match anywhere (C9) *)








(** ** Projection flattener *)

Lemma In_keys_set {V : Type} k k' (v : V) d :
  In k (keys (set k' v d)) <-> k' = k \/ In k (keys d).
Proof.
  pose proof (lookup_Some_keys _ _ (lookup_set_same k' v d)) as Hk'.
  destruct (keys_set k' v d) as [E|[Hnone E]]; rewrite E in *.
  - split; [auto|]. intros [<-|H]; assumption.
  - rewrite in_app_iff. simpl. intuition.
Qed.

Section RecordedKeysFacts.
Variable transform : FieldNamesMap.
Variable keep : bool.

Lemma recorded_at_MTree node tree :
  recorded_at transform keep node (MTree tree)
  = (if keep then [node] else []) ++ recorded_level transform keep node tree.
Proof.
  cbn [recorded_at]. f_equal.
  induction tree as [|[j v] rest IH]; [reflexivity|].
  cbn [recorded_level]. now rewrite IH.
Qed.

Lemma pending_app s1 s2 : pending transform keep (s1 ++ s2) = pending transform keep s1 ++ pending transform keep s2.
Proof.
  induction s1 as [|[n t] s1 IH]; simpl; [reflexivity|].
  now rewrite IH, app_assoc.
Qed.

Lemma recorded_level_split node tree k :
  In k (recorded_level transform keep node tree)
  <-> In k (level_keys transform keep node tree) \/ In k (pending transform keep (children node tree)).
Proof.
  induction tree as [|[j [|sub]] rest IH].
  - simpl. tauto.
  - cbn [recorded_level level_keys children recorded_at].
    simpl. rewrite IH. tauto.
  - cbn [recorded_level level_keys children pending].
    rewrite recorded_at_MTree, !in_app_iff, IH. tauto.
Qed.

Lemma projectLevel_keys node tree stack map k :
  In k (keys (snd (projectLevel transform keep node tree stack map)))
  <-> In k (keys map) \/ In k (level_keys transform keep node tree).
Proof.
  revert stack map.
  induction tree as [|[j [|sub]] rest IH]; intros stack map.
  - simpl. tauto.
  - cbn [projectLevel level_keys]. rewrite IH, In_keys_set. simpl. tauto.
  - cbn [projectLevel level_keys]. rewrite IH, in_app_iff.
    destruct keep; [rewrite In_keys_set; simpl; tauto | simpl; tauto].
Qed.

Lemma projectLevel_invariant (I : FieldsProjection -> Prop) :
  (forall k m, I m -> I (set k 1 m)) ->
  forall node tree stack map,
    I map -> I (snd (projectLevel transform keep node tree stack map)).
Proof.
  intros Hset node tree.
  induction tree as [|[j [|sub]] rest IH]; intros stack map Hmap.
  - exact Hmap.
  - cbn [projectLevel]. apply IH. now apply Hset.
  - cbn [projectLevel]. apply IH. destruct keep; [now apply Hset | exact Hmap].
Qed.

Lemma projectLoop_invariant (I : FieldsProjection -> Prop) :
  (forall k m, I m -> I (set k 1 m)) ->
  forall stack map, I map -> I (projectLoop transform keep stack map).
Proof.
  intros Hset stack map.
  funelim (projectLoop transform keep stack map); intros Hmap.
  - exact Hmap.
  - apply H; [assumption|]. apply projectLevel_invariant; assumption.
Qed.

Lemma projectLoop_keys stack map k :
  In k (keys (projectLoop transform keep stack map))
  <-> In k (keys map) \/ In k (pending transform keep stack).
Proof.
  funelim (projectLoop transform keep stack map).
  - simpl. tauto.
  - rewrite H, projectLevel_keys, projectLevel_stack. cbn [tl app pending].
    rewrite pending_app, !in_app_iff, recorded_level_split. tauto.
Qed.
End RecordedKeysFacts.

(** ** Parent paths are never renamed (C10) *)

Lemma recorded_at_incl transform keep node tree j v :
  In (j, v) tree ->
  incl (recorded_at transform keep (toDotNotation node j) v)
       (recorded_level transform keep node tree).
Proof.
  induction tree as [|[j' v'] rest IH]; intros HIn k Hk; [contradiction|].
  cbn [recorded_level]. apply in_app_iff. destruct HIn as [[= -> ->]|HIn].
  - now left.
  - right. now apply IH.
Qed.

Lemma parent_recorded transform tree path sub :
  Resolves tree path sub ->
  forall node,
    path <> [] ->
    In (fold_left toDotNotation path node)
       (recorded_level transform true node tree).
Proof.
  induction 1 as [|tree segment rest sub branch Hl Hres IH]; intros node Hne;
    [congruence|].
  apply lookup_In in Hl.
  apply (recorded_at_incl transform true node tree _ _ Hl).
  rewrite recorded_at_MTree. cbn [fold_left].
  destruct rest as [|next rest'].
  - now left.
  - right. apply IH. discriminate.
Qed.

Lemma all_ones_set k map : all_ones map -> all_ones (set k 1 map).
Proof.
  intros H k' v. destruct (String.eqb_spec k' k) as [->|Hk].
  - rewrite lookup_set_same. congruence.
  - rewrite lookup_set_other by assumption. apply H.
Qed.

Lemma fieldsProjection_keys fuel info options tree :
  fieldsMap fuel info options = Ok tree ->
  exists proj,
    fieldsProjection fuel info options = Ok proj
    /\ NoDup (keys proj)
    /\ all_ones proj
    /\ forall k, In k (keys proj)
                 <-> In k (recorded_level (transform_of options)
                             (keepParent options) "" tree).
Proof.
  intros Hmap. unfold fieldsProjection. rewrite Hmap. simpl.
  eexists. split; [reflexivity|]. split; [|split].
  - apply projectLoop_invariant with (I := fun m => NoDup (keys m)).
    + intros k m. apply NoDup_keys_set.
    + constructor.
  - apply projectLoop_invariant with (I := all_ones).
    + apply all_ones_set.
    + intros k v. discriminate.
  - intros k. rewrite projectLoop_keys. simpl. rewrite app_nil_r. tauto.
Qed.

(** C10: with parent retention, whatever the transform table, the projection
    holds under its own dot-path every path of the presence map that leads
    to a sub-map; its keys are those paths and the renamed leaf paths.  With
    the table [{ a: 'x', 'a.b': 'y' }] the parent [a] stays [a] while the
    leaf [a.b] becomes [y].  Stated for names, path segments, skip patterns
    and table entries that name no inherited member. *)
Theorem parents_keep_original_path :
  forall (fuel : nat) (info : option GraphQLResolveInfo)
         (options : option FieldsListOptions) (tree : MapResult),
    info_safe info = true ->
    options_safe options = true ->
    keepParent options = true ->
    fieldsMap fuel info options = Ok tree ->
    exists proj,
      fieldsProjection fuel info options = Ok proj
      /\ (forall path sub,
            path <> [] -> Resolves tree path sub ->
            lookup (dotted path) proj = Some 1)
      /\ (forall k, In k (keys proj)
                    <-> In k (recorded_level (transform_of options) true "" tree))
      /\ fieldsProjection 2 (info_of ParentExample.selection) ParentExample.options
         = Ok [("a", 1); ("c", 1); ("y", 1)].
Proof.
  intros fuel info options tree _ _ Hkeep Hmap.
  destruct (fieldsProjection_keys _ _ _ Hmap) as (proj & Hproj & _ & Hones & Hkeys).
  rewrite Hkeep in Hkeys.
  exists proj. split; [exact Hproj|]. split; [|split; [exact Hkeys | reflexivity]].
  intros path sub Hne Hres.
  assert (HIn : In (dotted path) (keys proj)).
  { apply Hkeys. unfold dotted. eapply parent_recorded; eassumption. }
  destruct (lookup (dotted path) proj) as [v|] eqn:El.
  - now rewrite (Hones _ _ El).
  - apply lookup_None_keys in El. contradiction.
Qed.

Lemma parents_keep_original_path_witness :
  exists proj,
    fieldsProjection 2 (info_of ParentExample.selection) ParentExample.options
    = Ok proj
    /\ lookup "a" proj = Some 1.
Proof.
  destruct (@parents_keep_original_path 2 (info_of ParentExample.selection)
              ParentExample.options
              [("a", MTree [("b", MFalse)]); ("c", MFalse)]
              eq_refl eq_refl eq_refl eq_refl) as (proj & Hproj & Hparents & _).
  exists proj. split; [exact Hproj|].
  apply (Hparents ["a"] [("b", MFalse)]); [discriminate|].
  econstructor; [reflexivity | constructor].
Defined.

(** ** Well-formed presence maps *)

Lemma In_set {V : Type} (e : string * V) k v d :
  In e (set k v d) -> e = (k, v) \/ In e d.
Proof.
  induction d as [|[k' v'] d IH]; simpl.
  - intros [<-|[]]. now left.
  - destruct (String.eqb_spec k k') as [->|Hk]; simpl.
    + intros [<-|H]; auto.
    + intros [<-|H]; auto. destruct (IH H); auto.
Qed.

Lemma WellFormed_nil P : WellFormed P [].
Proof.
  constructor; [constructor | contradiction | contradiction].
Qed.

Lemma WellFormed_set P tree k v :
  WellFormed P tree -> P k ->
  (forall sub, v = MTree sub -> WellFormed P sub) ->
  WellFormed P (set k v tree).
Proof.
  intros [t Hnd HP Hsub] Hk Hv. constructor.
  - now apply NoDup_keys_set.
  - intros k' v' HIn. apply In_set in HIn as [[= -> ->]|HIn]; eauto.
  - intros k' sub HIn. apply In_set in HIn as [[= -> <-]|HIn]; eauto.
Qed.

Lemma WellFormed_lookup P tree k sub :
  WellFormed P tree -> lookup k tree = Some (MTree sub) -> WellFormed P sub.
Proof.
  intros [t _ _ Hsub] Hl. apply lookup_In in Hl. eauto.
Qed.

Lemma WellFormed_branchLoop P segments : forall tree,
  WellFormed P tree -> WellFormed P (branchLoop segments tree).
Proof.
  induction segments as [|segment rest IH]; intros tree Hwf; [exact Hwf|].
  simpl. destruct (lookup segment tree) as [[|sub]|] eqn:El;
    try apply WellFormed_nil.
  apply IH. eapply WellFormed_lookup; eassumption.
Qed.

Lemma WellFormed_getBranch P tree path :
  WellFormed P tree -> WellFormed P (getBranch tree path).
Proof.
  intros Hwf. destruct path as [[|c s]|]; try exact Hwf.
  now apply WellFormed_branchLoop.
Qed.

Lemma all_nodes_here f node : all_nodes f node = true -> f node = true.
Proof.
  destruct node as [n d [sels|]|n d|d sels]; simpl;
    intros H; apply andb_true_iff in H; tauto.
Qed.

Lemma all_nodes_getNodes f node :
  all_nodes f node = true -> all_selections f (getNodes node) = true.
Proof.
  destruct node as [n d [sels|]|n d|d sels]; simpl;
    intros H; apply andb_true_iff in H; tauto.
Qed.

Lemma all_fragments_lookup f frs name fragment :
  all_fragments f frs = true ->
  lookup name frs = Some fragment ->
  all_selections f (frag_selectionSet fragment) = true.
Proof.
  intros Hall Hl. apply lookup_In in Hl.
  unfold all_fragments in Hall. rewrite forallb_forall in Hall.
  apply (Hall _ Hl).
Qed.

Section TraverseWellFormed.
Variable f : SelectionNode -> bool.
Variable P : string -> Prop.
Variable opts : TraverseOptions.
Hypothesis field_names : forall name d ss, f (Field name d ss) = true -> P name.
Hypothesis spread_names : forall name d, f (FragmentSpread name d) = true -> P name.
Hypothesis fragments_ok : all_fragments f (fragments opts) = true.

Lemma traverse_named_WellFormed rec name nodes root skip m :
  preserves f P rec -> P name -> all_selections f nodes = true ->
  WellFormed P root ->
  traverse_named rec opts name nodes root skip = Ok m ->
  WellFormed P m.
Proof.
  intros Hrec Hname Hnodes Hroot. unfold traverse_named.
  destruct (lookup name (fragments opts)) as [fragment|] eqn:Ef.
  - apply Hrec; [|assumption].
    eapply all_fragments_lookup; eassumption.
  - assert (Hcur : forall sub, lookup name root = Some (MTree sub) ->
                               WellFormed P sub).
    { intros sub Hl. eapply WellFormed_lookup; eassumption. }
    destruct (verifySkip name skip); [| now intros [= <-] |];
      (destruct nodes as [|n ns];
       destruct (lookup name root) as [[|sub]|] eqn:El; cbn -[set];
       intros H;
       [ injection H as <- | injection H as <- | injection H as <-
       | apply bind_Ok in H as (child' & Hc & [= <-]); rewrite set_set
       | apply bind_Ok in H as (child' & Hc & [= <-]); rewrite set_set
       | apply bind_Ok in H as (child' & Hc & [= <-]); rewrite set_set ];
       apply WellFormed_set; auto; try discriminate;
       intros sub' [= <-]; eauto using WellFormed_nil).
Qed.

Lemma traverse_node_WellFormed rec node root skip m :
  preserves f P rec -> all_nodes f node = true -> WellFormed P root ->
  traverse_node rec opts node root skip = Ok m ->
  WellFormed P m.
Proof.
  intros Hrec Hnode Hroot. unfold traverse_node.
  destruct (withVars opts && negb (verifyDirectives (node_directives node) (vars opts))).
  { now intros [= <-]. }
  pose proof (all_nodes_here _ _ Hnode) as Hf.
  pose proof (all_nodes_getNodes _ _ Hnode) as Hsels.
  destruct node as [name d ss|name d|d sels].
  - eapply traverse_named_WellFormed; eauto.
  - eapply traverse_named_WellFormed; eauto.
  - destruct (is_nil sels); [now intros [= <-]|]. now apply Hrec.
Qed.

Lemma traverse_loop_WellFormed rec : preserves f P rec ->
  preserves f P (traverse_loop rec opts).
Proof.
  intros Hrec nodes. induction nodes as [|node rest IH];
    intros root skip m Hall Hroot; simpl.
  - now intros [= <-].
  - simpl in Hall. apply andb_true_iff in Hall as [Hnode Hrest].
    intros H. apply bind_Ok in H as (root' & Hn & Hl).
    eapply IH; [exact Hrest | | exact Hl].
    eapply traverse_node_WellFormed; eassumption.
Qed.

Lemma traverse_WellFormed fuel : preserves f P (traverse fuel opts).
Proof.
  induction fuel as [|fuel IH].
  - intros nodes root skip m _ _. discriminate.
  - apply traverse_loop_WellFormed. exact IH.
Qed.
End TraverseWellFormed.

(** ** Dot-paths of distinct keys are distinct *)

Lemma append_assoc (a b c : string) : ((a ++ b) ++ c = a ++ b ++ c)%string.
Proof.
  induction a as [|x a IH]; simpl; [reflexivity | now rewrite IH].
Qed.

Lemma append_nil_r (a : string) : (a ++ "" = a)%string.
Proof.
  induction a as [|x a IH]; simpl; [reflexivity | now rewrite IH].
Qed.

Lemma append_inv_head (a b c : string) : (a ++ b = a ++ c)%string -> b = c.
Proof.
  induction a as [|x a IH]; simpl; [auto|]. intros [= H]. auto.
Qed.

Lemma dot_free_prefix j1 : forall j2 t1 t2,
  has_dot j1 = false -> has_dot j2 = false -> Tail t1 -> Tail t2 ->
  (j1 ++ t1 = j2 ++ t2)%string -> j1 = j2.
Proof.
  induction j1 as [|c1 j1 IH]; intros [|c2 j2] t1 t2 H1 H2 T1 T2 E; simpl in *.
  - reflexivity.
  - apply orb_false_iff in H2 as [Hc _].
    destruct T1 as [->|[s ->]]; [discriminate|].
    injection E as <- _. discriminate.
  - apply orb_false_iff in H1 as [Hc _].
    destruct T2 as [->|[s ->]]; [discriminate|].
    injection E as -> _. discriminate.
  - apply orb_false_iff in H1 as [_ H1]. apply orb_false_iff in H2 as [_ H2].
    injection E as -> E. f_equal. apply (IH j2 t1 t2); assumption.
Qed.

Lemma name_ok_inv j : name_ok j = true -> j <> "" /\ has_dot j = false.
Proof.
  unfold name_ok. intros H. apply andb_true_iff in H as [Hne Hdot].
  apply negb_true_iff in Hne, Hdot. split; [|assumption].
  now apply String.eqb_neq.
Qed.

Lemma toDotNotation_prefix node :
  exists pre, forall j, toDotNotation node j = (pre ++ j)%string.
Proof.
  destruct node as [|c node].
  - now exists "".
  - exists (String c node ++ ".")%string. intros j. unfold toDotNotation.
    now rewrite append_assoc.
Qed.

Lemma toDotNotation_nonempty node j : j <> "" -> toDotNotation node j <> "".
Proof.
  destruct node; simpl; [auto | discriminate].
Qed.

Lemma Extends_self node : Extends node node.
Proof.
  exists "". split; [now rewrite append_nil_r | now left].
Qed.

Lemma Extends_child node j k :
  node <> "" -> Extends (toDotNotation node j) k -> Extends node k /\ k <> node.
Proof.
  intros Hne (t & -> & Ht). destruct node as [|c node]; [congruence|].
  unfold toDotNotation. rewrite !append_assoc. split.
  - eexists. split; [reflexivity|]. right. eexists. reflexivity.
  - intros E. rewrite <- (append_nil_r (String c node)) in E at 2.
    apply append_inv_head in E. discriminate.
Qed.

Lemma Extends_distinct node j1 j2 k :
  name_ok j1 = true -> name_ok j2 = true ->
  Extends (toDotNotation node j1) k -> Extends (toDotNotation node j2) k ->
  j1 = j2.
Proof.
  intros H1 H2 (t1 & -> & T1) (t2 & E & T2).
  destruct (toDotNotation_prefix node) as [pre Hpre].
  rewrite !Hpre, !append_assoc in E. apply append_inv_head in E.
  apply name_ok_inv in H1 as [_ H1]. apply name_ok_inv in H2 as [_ H2].
  apply dot_free_prefix with (t1 := t1) (t2 := t2); assumption.
Qed.

Lemma recorded_at_distinct keep j v node :
  name_ok j = true ->
  (forall sub, v = MTree sub ->
     forall node',
       NoDup (recorded_level [] keep node' sub)
       /\ forall k, In k (recorded_level [] keep node' sub) ->
                    exists j', In j' (keys sub) /\ Extends (toDotNotation node' j') k) ->
  NoDup (recorded_at [] keep (toDotNotation node j) v)
  /\ forall k, In k (recorded_at [] keep (toDotNotation node j) v) ->
               Extends (toDotNotation node j) k.
Proof.
  intros Hj Hsub.
  assert (Hne : toDotNotation node j <> "").
  { apply toDotNotation_nonempty. now apply name_ok_inv in Hj. }
  destruct v as [|sub].
  - split.
    + repeat constructor. simpl. tauto.
    + intros k [<-|[]]. apply Extends_self.
  - rewrite recorded_at_MTree.
    destruct (Hsub sub eq_refl (toDotNotation node j)) as [Hnd Hext].
    assert (Hbelow : forall k,
               In k (recorded_level [] keep (toDotNotation node j) sub) ->
               Extends (toDotNotation node j) k /\ k <> toDotNotation node j).
    { intros k Hk. destruct (Hext k Hk) as (j' & _ & He).
      eapply Extends_child; eassumption. }
    split.
    + apply NoDup_app; [destruct keep; repeat constructor; simpl; tauto | exact Hnd |].
      intros k Hk Hk'. destruct keep; [|contradiction].
      destruct Hk as [<-|[]]. now apply Hbelow in Hk'.
    + intros k Hk. apply in_app_iff in Hk as [Hk|Hk].
      * destruct keep; [|contradiction]. destruct Hk as [<-|[]].
        apply Extends_self.
      * now apply Hbelow.
Qed.

Lemma recorded_level_distinct keep tree :
  WellFormed GoodName tree ->
  forall node,
    NoDup (recorded_level [] keep node tree)
    /\ forall k, In k (recorded_level [] keep node tree) ->
                 exists j, In j (keys tree) /\ Extends (toDotNotation node j) k.
Proof.
  induction 1 as [tree Hnd Hnames _ IHsub]. intros node.
  assert (Hlevel : forall l,
             incl l tree -> NoDup (keys l) ->
             NoDup (recorded_level [] keep node l)
             /\ forall k, In k (recorded_level [] keep node l) ->
                          exists j, In j (keys l) /\ Extends (toDotNotation node j) k).
  { induction l as [|[j v] rest IHl]; intros Hincl Hkeys.
    - split; [constructor | contradiction].
    - inversion Hkeys as [|? ? Hnotin Hkeys']; subst.
      assert (Hrest : incl rest tree) by (intros e He; apply Hincl; now right).
      destruct (IHl Hrest Hkeys') as [IH1 IH2].
      assert (Hj : name_ok j = true) by (apply (Hnames j v), Hincl; now left).
      destruct (@recorded_at_distinct keep j v node Hj) as [A1 A2].
      { intros sub -> node'. apply (IHsub j sub). apply Hincl. now left. }
      cbn [recorded_level]. split.
      + apply NoDup_app; [exact A1 | exact IH1 |].
        intros k Hk Hk'. apply A2 in Hk.
        destruct (IH2 k Hk') as (j' & Hj' & He).
        assert (Hok : name_ok j' = true).
        { apply in_map_iff in Hj' as ([j0 v0] & <- & He0).
          apply (Hnames j0 v0), Hrest, He0. }
        rewrite (@Extends_distinct node j j' k Hj Hok Hk He) in Hnotin.
        contradiction.
      + intros k Hk. apply in_app_iff in Hk as [Hk|Hk].
        * exists j. split; [now left | now apply A2].
        * destruct (IH2 k Hk) as (j' & Hj' & He). exists j'.
          split; [now right | exact He]. }
  apply Hlevel; [apply incl_refl | exact Hnd].
Qed.

(** ** Keys of the projection (C8) *)

Lemma verifyInfo_In info fieldNode :
  verifyInfo (Some info) = Some fieldNode ->
  exists nodes, field_node_list info = Some nodes /\ In fieldNode nodes.
Proof.
  unfold verifyInfo, field_node_list, verifyFieldNode.
  destruct (fieldNodes info) as [nodes|].
  - destruct (find _ nodes) as [n|] eqn:Ef; [|discriminate].
    destruct (fn_selectionSet n); [|discriminate]. intros [= <-].
    exists nodes. split; [reflexivity|]. now apply find_some in Ef.
  - destruct (fieldASTs info) as [nodes|]; [|discriminate].
    destruct (find _ nodes) as [n|] eqn:Ef; [|discriminate].
    destruct (fn_selectionSet n); [|discriminate]. intros [= <-].
    exists nodes. split; [reflexivity|]. now apply find_some in Ef.
Qed.

Lemma fieldsMap_WellFormed fuel info options tree :
  info_names_ok info = true ->
  fieldsMap fuel info options = Ok tree ->
  WellFormed GoodName tree.
Proof.
  intros Hnames. unfold fieldsMap.
  destruct (verifyInfo info) as [fieldNode|] eqn:Ev;
    [|intros [= <-]; apply WellFormed_nil].
  destruct info as [info|]; [|intros [= <-]; apply WellFormed_nil].
  destruct (verifyInfo_In _ Ev) as (nodes & Hl & HIn).
  simpl in Hnames. rewrite Hl in Hnames.
  apply andb_true_iff in Hnames as [Hfr Hsel].
  rewrite forallb_forall in Hsel. specialize (Hsel _ HIn).
  intros H. apply bind_Ok in H as (rules & _ & H).
  apply bind_Ok in H as (t & Ht & [= <-]).
  apply WellFormed_getBranch.
  eapply (@traverse_WellFormed named_ok GoodName) in Ht; try eassumption.
  - intros name d ss Hn. exact Hn.
  - intros name d Hn. exact Hn.
  - apply WellFormed_nil.
Qed.

(** ** Safe inputs have good names *)

Lemma name_char_not_dot c : name_char c = true -> Ascii.eqb c "."%char = false.
Proof.
  destruct (Ascii.eqb_spec c "."%char) as [->|]; [|reflexivity].
  intros H. vm_compute in H. discriminate H.
Qed.

Lemma all_chars_no_dot s : all_chars name_char s = true -> has_dot s = false.
Proof.
  induction s as [|c s IH]; [reflexivity|]. cbn [all_chars has_dot].
  intros H. apply andb_true_iff in H as [Hc Hs].
  now rewrite (name_char_not_dot _ Hc), IH.
Qed.

Lemma graphql_name_ok s : graphql_name s = true -> name_ok s = true.
Proof.
  destruct s as [|c s]; [discriminate|]. cbn [graphql_name].
  intros H. apply andb_true_iff in H as [Hc Hs].
  assert (Hc' : name_char c = true) by (unfold name_char; now rewrite Hc).
  unfold name_ok. cbn [String.eqb has_dot negb andb].
  now rewrite (name_char_not_dot _ Hc'), (all_chars_no_dot _ Hs).
Qed.

Fixpoint all_nodes_impl (f g : SelectionNode -> bool)
    (Hfg : forall node, f node = true -> g node = true) (node : SelectionNode) :
  all_nodes f node = true -> all_nodes g node = true.
Proof.
  destruct node as [name d [sels|]|name d|d sels]; cbn [all_nodes];
    intros H; apply andb_true_iff in H as [Hf Hs];
    rewrite (Hfg _ Hf); cbn [andb]; try reflexivity; clear Hf.
  - induction sels as [|n ns IH]; [reflexivity|]. cbn [forallb] in *.
    apply andb_true_iff in Hs as [Hn Hns].
    now rewrite (all_nodes_impl f g Hfg n Hn), IH.
  - induction sels as [|n ns IH]; [reflexivity|]. cbn [forallb] in *.
    apply andb_true_iff in Hs as [Hn Hns].
    now rewrite (all_nodes_impl f g Hfg n Hn), IH.
Qed.

Lemma all_selections_impl f g nodes :
  (forall node, f node = true -> g node = true) ->
  all_selections f nodes = true -> all_selections g nodes = true.
Proof.
  intros Hfg. unfold all_selections. rewrite !forallb_forall.
  intros H n Hn. apply (all_nodes_impl f g Hfg), H, Hn.
Qed.

Lemma all_fragments_impl f g frs :
  (forall node, f node = true -> g node = true) ->
  all_fragments f frs = true -> all_fragments g frs = true.
Proof.
  intros Hfg. unfold all_fragments. rewrite !forallb_forall.
  intros H e He. apply (all_selections_impl f g _ Hfg), H, He.
Qed.

Lemma node_safe_named_ok node : node_safe node = true -> named_ok node = true.
Proof.
  unfold node_safe, field_name. intros H. apply andb_true_iff in H as [H _].
  destruct node as [name d ss|name d|d sels]; cbn [named_sat named_ok] in *;
    try reflexivity;
    apply andb_true_iff in H as [H _]; now apply graphql_name_ok.
Qed.

Lemma info_safe_names_ok info : info_safe info = true -> info_names_ok info = true.
Proof.
  destruct info as [info|]; [|reflexivity]. cbn [info_safe info_names_ok].
  intros H. apply andb_true_iff in H as [H _].
  apply andb_true_iff in H as [Hfr Hsel]. apply andb_true_iff. split.
  - apply (all_fragments_impl node_safe named_ok _ node_safe_named_ok Hfr).
  - rewrite forallb_forall in *. intros fn Hfn.
    apply (all_selections_impl node_safe named_ok _ node_safe_named_ok).
    now apply Hsel.
Qed.

(** ** Recorded paths and their keys *)

Lemma marked_at_MTree keep node tree :
  marked_at keep node (MTree tree)
  = (if keep then [(node, false)] else []) ++ marked_level keep node tree.
Proof.
  cbn [marked_at]. f_equal.
  induction tree as [|[j v] rest IH]; [reflexivity|].
  cbn [marked_level]. now rewrite IH.
Qed.

Fixpoint recorded_at_marked (transform : FieldNamesMap) (keep : bool)
    (v : MapResultKey) :
  forall node,
    recorded_at transform keep node v
    = map (final_key transform) (marked_at keep node v).
Proof.
  destruct v as [|tree]; intros node; [reflexivity|].
  cbn [recorded_at marked_at]. rewrite map_app. f_equal.
  - destruct keep; reflexivity.
  - induction tree as [|[j v'] rest IH]; [reflexivity|].
    rewrite map_app, (recorded_at_marked transform keep v'), IH. reflexivity.
Qed.

Lemma recorded_level_marked transform keep node tree :
  recorded_level transform keep node tree
  = map (final_key transform) (marked_level keep node tree).
Proof.
  induction tree as [|[j v] rest IH]; [reflexivity|].
  cbn [recorded_level marked_level].
  now rewrite map_app, recorded_at_marked, IH.
Qed.

Lemma final_key_untransformed e : final_key [] e = fst e.
Proof.
  destruct e as [p []]; reflexivity.
Qed.

Lemma NoDup_map_injective {A B : Type} (f : A -> B) (l : list A) x y :
  NoDup (map f l) -> In x l -> In y l -> f x = f y -> x = y.
Proof.
  induction l as [|a l IH]; [contradiction|]. cbn [map].
  intros Hnd Hx Hy E. inversion Hnd as [|? ? Hnotin Hnd']; subst.
  destruct Hx as [->|Hx], Hy as [->|Hy]; auto.
  - exfalso. apply Hnotin. rewrite E. now apply in_map.
  - exfalso. apply Hnotin. rewrite <- E. now apply in_map.
Qed.

Lemma recorded_keys_distinct transform keep tree :
  WellFormed GoodName tree ->
  collision_free transform (marked_level keep "" tree) ->
  NoDup (recorded_level transform keep "" tree).
Proof.
  intros Hwf Hfree.
  destruct (recorded_level_distinct keep Hwf "") as [Hnd _].
  rewrite recorded_level_marked in Hnd.
  rewrite (map_ext _ _ final_key_untransformed) in Hnd.
  rewrite recorded_level_marked.
  apply NoDup_map_NoDup_ForallPairs.
  - intros e1 e2 H1 H2 E.
    apply (NoDup_map_injective fst _ _ _ Hnd H1 H2). now apply Hfree.
  - eapply NoDup_map_inv. exact Hnd.
Qed.

(** C8, the claim as stated fails: under the transform table [{ a: 'b' }]
    the leaves [a] and [b] are both written to the key [b], and the
    projection of two leaves has one entry. *)
Lemma transform_collides :
  fieldsMap 2 (info_of CollisionExample.selection) CollisionExample.options
  = Ok [("a", MFalse); ("b", MFalse)]
  /\ recorded_level (transform_of CollisionExample.options)
       (keepParent CollisionExample.options) ""
       [("a", MFalse); ("b", MFalse)]
     = ["b"; "b"]
  /\ fieldsProjection 2 (info_of CollisionExample.selection) CollisionExample.options
     = Ok [("b", 1)]
  /\ ~ RecordedKeysDistinct.
Proof.
  repeat (split; [reflexivity|]).
  intros H.
  specialize (H 2 (info_of CollisionExample.selection) CollisionExample.options
                [("a", MFalse); ("b", MFalse)] eq_refl eq_refl).
  inversion H as [|x l Hnotin _]; subst. apply Hnotin. now left.
Qed.

(** C8, amended: for names, path segments, skip patterns and table entries
    that name no inherited member, and whatever the parent retention, if
    the transform table gives no two recorded paths the same key (a leaf
    path is written under its replacement, a kept parent path under
    itself), the keys written into the projection are pairwise distinct,
    and the projection has exactly one entry per recorded path.  The
    dot-paths themselves are always pairwise distinct, so that every table
    that renames nothing qualifies. *)
Theorem projection_keys_distinct :
  forall (fuel : nat) (info : option GraphQLResolveInfo)
         (options : option FieldsListOptions) (tree : MapResult),
    info_safe info = true ->
    options_safe options = true ->
    fieldsMap fuel info options = Ok tree ->
    NoDup (map fst (marked_level (keepParent options) "" tree))
    /\ (collision_free (transform_of options)
                       (marked_level (keepParent options) "" tree) ->
        exists proj,
          fieldsProjection fuel info options = Ok proj
          /\ NoDup (recorded_level (transform_of options) (keepParent options) "" tree)
          /\ Permutation (keys proj)
               (recorded_level (transform_of options) (keepParent options) "" tree)
          /\ List.length proj
             = List.length (recorded_level (transform_of options)
                              (keepParent options) "" tree)).
Proof.
  intros fuel info options tree Hinfo _ Hmap.
  pose proof (fieldsMap_WellFormed _ _ _ (info_safe_names_ok _ Hinfo) Hmap) as Hwf.
  split.
  - destruct (recorded_level_distinct (keepParent options) Hwf "") as [Hnd _].
    rewrite recorded_level_marked in Hnd.
    now rewrite (map_ext _ _ final_key_untransformed) in Hnd.
  - intros Hfree.
    destruct (fieldsProjection_keys _ _ _ Hmap) as (proj & Hproj & Hnd & _ & Hkeys).
    pose proof (@recorded_keys_distinct _ _ _ Hwf Hfree) as Hdistinct.
    assert (Hperm : Permutation (keys proj)
              (recorded_level (transform_of options) (keepParent options) "" tree)).
    { apply NoDup_Permutation; assumption. }
    exists proj. repeat (split; [assumption|]).
    apply Permutation_length in Hperm. unfold keys in Hperm.
    now rewrite length_map in Hperm.
Qed.

Lemma projection_keys_distinct_witness :
  exists proj,
    fieldsProjection 2 (info_of ParentExample.selection) ParentExample.options
    = Ok proj
    /\ NoDup ["a"; "y"; "c"]
    /\ Permutation (keys proj) ["a"; "y"; "c"]
    /\ List.length proj = 3.
Proof.
  destruct (@projection_keys_distinct 2 (info_of ParentExample.selection)
              ParentExample.options
              [("a", MTree [("b", MFalse)]); ("c", MFalse)]
              eq_refl eq_refl eq_refl) as [_ H].
  apply H. intros e1 e2 H1 H2.
  cbn in H1, H2.
  destruct H1 as [<-|[<-|[<-|[]]]], H2 as [<-|[<-|[<-|[]]]];
    cbn; intros E; try reflexivity; discriminate E.
Defined.

(** ** The presence map of a selection *)

Lemma Requested_nil frs path : ~ Requested frs [] path.
Proof.
  intros H. inversion H; subst; contradiction.
Qed.

Lemma Requested_cons frs node rest path :
  Requested frs (node :: rest) path
  <-> Requested frs [node] path \/ Requested frs rest path.
Proof.
  split.
  - intros H. inversion H as [ns d sels p HIn Hr|ns n name fr p HIn Hn Hl Hr
                              |ns n name HIn Hn Hl|ns n name p HIn Hn Hl Hr];
      subst; (destruct HIn as [E|HIn]; [subst node; left | right]).
    + eapply Requested_inline; [now left | eassumption].
    + eapply Requested_inline; eassumption.
    + eapply Requested_spread; [now left | eassumption..].
    + eapply Requested_spread; eassumption.
    + eapply Requested_field; [now left | eassumption..].
    + eapply Requested_field; eassumption.
    + eapply Requested_below; [now left | eassumption..].
    + eapply Requested_below; eassumption.
  - intros [H|H].
    + inversion H as [ns d sels p HIn Hr|ns n name fr p HIn Hn Hl Hr
                      |ns n name HIn Hn Hl|ns n name p HIn Hn Hl Hr];
        subst; (destruct HIn as [E|[]]; subst node).
      * eapply Requested_inline; [now left | eassumption].
      * eapply Requested_spread; [now left | eassumption..].
      * eapply Requested_field; [now left | eassumption..].
      * eapply Requested_below; [now left | eassumption..].
    + inversion H as [ns d sels p HIn Hr|ns n name fr p HIn Hn Hl Hr
                      |ns n name HIn Hn Hl|ns n name p HIn Hn Hl Hr]; subst.
      * eapply Requested_inline; [right; eassumption | eassumption].
      * eapply Requested_spread; [right; eassumption | eassumption..].
      * eapply Requested_field; [right; eassumption | eassumption..].
      * eapply Requested_below; [right; eassumption | eassumption..].
Qed.

Lemma Named_fun node n1 n2 : Named node n1 -> Named node n2 -> n1 = n2.
Proof.
  intros H1 H2. inversion H1; subst; inversion H2; subst; reflexivity.
Qed.

Lemma Requested_inline_one frs d sels path :
  Requested frs [InlineFragment d sels] path <-> Requested frs sels path.
Proof.
  split.
  - intros H. inversion H as [ns d' sels' p HIn Hr|ns n name fr p HIn Hn Hl Hr
                              |ns n name HIn Hn Hl|ns n name p HIn Hn Hl Hr];
      subst; destruct HIn as [E|[]]; try (subst; inversion Hn; fail).
    now injection E as <- <-.
  - intros H. eapply Requested_inline; [now left | exact H].
Qed.

Lemma Requested_fragment_one frs node name fragment path :
  Named node name -> lookup name frs = Some fragment ->
  Requested frs [node] path <-> Requested frs (frag_selectionSet fragment) path.
Proof.
  intros Hnamed Hfr. split.
  - intros H. inversion H as [ns d' sels' p HIn Hr|ns n name' fr p HIn Hn Hl Hr
                              |ns n name' HIn Hn Hl|ns n name' p HIn Hn Hl Hr];
      subst; destruct HIn as [E|[]]; subst.
    + inversion Hnamed.
    + rewrite (Named_fun Hn Hnamed) in Hl. congruence.
    + rewrite (Named_fun Hn Hnamed) in Hl. congruence.
    + rewrite (Named_fun Hn Hnamed) in Hl. congruence.
  - intros H. eapply Requested_spread; [now left | eassumption..].
Qed.

Lemma Requested_field_one frs node name path :
  Named node name -> lookup name frs = None ->
  Requested frs [node] path
  <-> path = [name]
      \/ exists below, path = name :: below /\ Requested frs (getNodes node) below.
Proof.
  intros Hnamed Hfr. split.
  - intros H. inversion H as [ns d' sels' p HIn Hr|ns n name' fr p HIn Hn Hl Hr
                              |ns n name' HIn Hn Hl|ns n name' p HIn Hn Hl Hr];
      subst; destruct HIn as [E|[]]; subst.
    + inversion Hnamed.
    + rewrite (Named_fun Hn Hnamed) in Hl. congruence.
    + left. now rewrite (Named_fun Hn Hnamed).
    + right. rewrite (Named_fun Hn Hnamed). eauto.
  - intros [->|(below & -> & Hb)].
    + eapply Requested_field; [now left | eassumption..].
    + eapply Requested_below; [now left | eassumption..].
Qed.

Lemma verifySkip_Inert name skip : Inert skip -> verifySkip name skip = SFalse.
Proof.
  intros [-> | ->]; reflexivity.
Qed.

Lemma InMap_nil path : ~ InMap path [].
Proof.
  destruct path as [|k [|k' rest]]; simpl; auto.
Qed.

Lemma InMap_set_field root name (new : MapResultKey) path (R : list string -> Prop) :
  (forall q, q <> [] ->
     match new with MTree s => InMap q s | MFalse => False end
     <-> match lookup name root with
         | Some (MTree s) => InMap q s
         | _ => False
         end \/ R q) ->
  InMap path (set name new root)
  <-> InMap path root
      \/ path = [name]
      \/ exists below, path = name :: below /\ R below.
Proof.
  intros Hnew. destruct path as [|k rest].
  - simpl. split; [tauto|]. intros [[]|[[=]|(below & [=] & _)]].
  - destruct (String.eqb_spec k name) as [->|Hk].
    + destruct rest as [|r rs].
      * simpl. rewrite lookup_set_same. split; [auto | discriminate].
      * cbn [InMap]. rewrite lookup_set_same.
        rewrite (Hnew (r :: rs)) by discriminate. split.
        -- intros [H|H]; [now left | right; right; eauto].
        -- intros [H|[[=]|(below & [= <-] & H)]]; auto.
    + cbn [InMap]. rewrite lookup_set_other by assumption. split; [auto|].
      intros [H|[[= E]|(below & [= E _] & _)]]; congruence.
Qed.

Section PresenceMap.
Variable opts : TraverseOptions.
Hypothesis fragments_plain :
  all_fragments no_directives (fragments opts) = true.

Lemma no_directives_verified node :
  no_directives node = true ->
  verifyDirectives (node_directives node) (vars opts) = true.
Proof.
  unfold no_directives. destruct (node_directives node) as [[|d ds]|];
    [reflexivity | discriminate | reflexivity].
Qed.

Lemma traverse_named_describes rec node name root skip m :
  describes opts rec -> Named node name ->
  all_selections no_directives (getNodes node) = true -> Inert skip ->
  traverse_named rec opts name (getNodes node) root skip = Ok m ->
  forall path,
    InMap path m <-> InMap path root \/ Requested (fragments opts) [node] path.
Proof.
  intros Hrec Hnamed Hsels Hskip. unfold traverse_named.
  destruct (lookup name (fragments opts)) as [fragment|] eqn:Ef.
  - intros H path.
    rewrite (@Requested_fragment_one (fragments opts) node name fragment path Hnamed Ef).
    eapply Hrec; [|exact Hskip | exact H].
    eapply all_fragments_lookup; eassumption.
  - rewrite (@verifySkip_Inert name skip Hskip).
    intros H path.
    rewrite (@Requested_field_one (fragments opts) node name path Hnamed Ef).
    destruct (getNodes node) as [|n ns] eqn:En.
    + assert (E : m = set name match lookup name root with
                               | Some (MTree sub) => MTree sub
                               | _ => MFalse
                               end root).
      { destruct (lookup name root) as [[|sub]|]; simpl in H; congruence. }
      rewrite E. apply InMap_set_field.
      intros q Hq. destruct (lookup name root) as [[|sub]|]; split;
        try tauto; (intros [H0|Hr]; [tauto | now apply Requested_nil in Hr]).
    + assert (E : exists child',
                 rec (n :: ns) match lookup name root with
                               | Some (MTree sub) => sub
                               | _ => []
                               end SFalse = Ok child'
                 /\ m = set name (MTree child') root).
      { destruct (lookup name root) as [[|sub]|]; simpl in H;
          apply bind_Ok in H as (child' & Hc & [= <-]);
          exists child'; rewrite set_set; auto. }
      destruct E as (child' & Hc & ->).
      apply InMap_set_field. intros q Hq.
      rewrite (Hrec _ _ _ _ Hsels (or_introl eq_refl) Hc q).
      destruct (lookup name root) as [[|sub]|]; try tauto;
        split; try tauto; intros [H0|H0]; auto; now apply InMap_nil in H0.
Qed.

Lemma traverse_node_describes rec node root skip m :
  describes opts rec -> all_nodes no_directives node = true -> Inert skip ->
  traverse_node rec opts node root skip = Ok m ->
  forall path,
    InMap path m <-> InMap path root \/ Requested (fragments opts) [node] path.
Proof.
  intros Hrec Hnode Hskip. unfold traverse_node.
  rewrite (@no_directives_verified node (@all_nodes_here no_directives node Hnode)).
  rewrite andb_false_r.
  pose proof (@all_nodes_getNodes no_directives node Hnode) as Hsels.
  destruct node as [name d ss|name d|d sels].
  - apply traverse_named_describes; auto. constructor.
  - apply traverse_named_describes; auto. constructor.
  - intros H path. rewrite Requested_inline_one.
    destruct sels as [|n ns]; simpl in H.
    + injection H as <-. split; [auto|].
      intros [H|H]; [assumption | now apply Requested_nil in H].
    + eapply Hrec; eassumption.
Qed.

Lemma traverse_loop_describes rec :
  describes opts rec -> describes opts (traverse_loop rec opts).
Proof.
  intros Hrec nodes. induction nodes as [|node rest IH];
    intros root skip m Hall Hskip; simpl.
  - intros [= <-] path. split; [auto|].
    intros [H|H]; [assumption | now apply Requested_nil in H].
  - simpl in Hall. apply andb_true_iff in Hall as [Hnode Hrest].
    intros H path. apply bind_Ok in H as (root' & Hn & Hl).
    rewrite (@Requested_cons (fragments opts) node rest path).
    rewrite (IH root' skip m Hrest Hskip Hl path).
    rewrite (@traverse_node_describes rec node root skip root' Hrec Hnode Hskip Hn path).
    tauto.
Qed.

Lemma traverse_describes fuel : describes opts (traverse fuel opts).
Proof.
  induction fuel as [|fuel IH].
  - intros nodes root skip m _ _. discriminate.
  - apply traverse_loop_describes. exact IH.
Qed.

(** A finite inlining is walked within some budget. *)
Lemma traverse_loop_Finite nodes :
  Finite (fragments opts) nodes ->
  exists n, forall fuel, n <= fuel -> forall root skip,
    exists m, traverse_loop (traverse fuel opts) opts nodes root skip = Ok m.
Proof.
  induction 1 as [|d sels rest Hsels [n1 IH1] Hrest [n2 IH2]
                  |node name fragment rest Hnamed Hl Hfr [n1 IH1] Hrest [n2 IH2]
                  |node name rest Hnamed Hl Hsub [n1 IH1] Hrest [n2 IH2]].
  - exists 0. intros fuel _ root skip. now exists root.
  - exists (Nat.max (S n1) n2). intros fuel Hfuel root skip.
    destruct fuel as [|fuel]; [lia|].
    assert (Hnode : exists m, traverse_node (traverse (S fuel) opts) opts
                                (InlineFragment d sels) root skip = Ok m).
    { unfold traverse_node. destruct (withVars opts && _); [eauto|].
      destruct (is_nil sels); [eauto|]. apply IH1. lia. }
    destruct Hnode as [m Hm]. cbn [traverse_loop]. rewrite Hm. cbn [bind].
    apply IH2. lia.
  - exists (Nat.max (S n1) n2). intros fuel Hfuel root skip.
    destruct fuel as [|fuel]; [lia|].
    assert (Hnode : exists m, traverse_node (traverse (S fuel) opts) opts
                                node root skip = Ok m).
    { unfold traverse_node. destruct (withVars opts && _); [eauto|].
      destruct Hnamed; unfold traverse_named; rewrite Hl; apply IH1; lia. }
    destruct Hnode as [m Hm]. cbn [traverse_loop]. rewrite Hm. cbn [bind].
    apply IH2. lia.
  - exists (Nat.max (S n1) n2). intros fuel Hfuel root skip.
    destruct fuel as [|fuel]; [lia|].
    assert (Hnode : exists m, traverse_node (traverse (S fuel) opts) opts
                                node root skip = Ok m).
    { assert (Hnamed' : forall nodes, nodes = getNodes node ->
                exists m, traverse_named (traverse (S fuel) opts) opts name
                            nodes root skip = Ok m).
      { intros nodes ->. unfold traverse_named. rewrite Hl.
        destruct (verifySkip name skip); [| eauto |];
          (destruct (getNodes node) as [|n ns] eqn:En;
           destruct (lookup name root) as [[|sub]|]; cbn -[set traverse];
           eauto;
           match goal with
           | |- context [traverse (S fuel) opts (n :: ns) ?c ?s] =>
               destruct (IH1 fuel ltac:(lia) c s) as [c' Hc'];
               change (traverse (S fuel) opts (n :: ns) c s)
                 with (traverse_loop (traverse fuel opts) opts (n :: ns) c s);
               rewrite Hc'; simpl; eauto
           end). }
      unfold traverse_node. destruct (withVars opts && _); [eauto|].
      destruct Hnamed; apply Hnamed'; reflexivity. }
    destruct Hnode as [m Hm]. cbn [traverse_loop]. rewrite Hm. cbn [bind].
    apply IH2. lia.
Qed.
End PresenceMap.

(** What the walker builds without directives and without skip rules, a
    fragment reference being any field or spread whose name is a key of the
    fragment table. *)
Lemma traverse_requested (opts : TraverseOptions) (nodes : list SelectionNode) :
  all_selections no_directives nodes = true ->
  all_fragments no_directives (fragments opts) = true ->
  Finite (fragments opts) nodes ->
  exists n, forall fuel, n <= fuel ->
    exists m,
      traverse fuel opts nodes [] (STree []) = Ok m
      /\ WellFormed (fun _ => True) m
      /\ forall path, InMap path m <-> Requested (fragments opts) nodes path.
Proof.
  intros Hnodes Hfrs Hfin.
  destruct (@traverse_loop_Finite opts nodes Hfin) as [n Hn].
  exists (S n). intros fuel Hfuel.
  destruct fuel as [|fuel]; [lia|].
  destruct (Hn fuel ltac:(lia) [] (STree [])) as [m Hm].
  exists m. split; [exact Hm|]. split.
  - eapply (@traverse_WellFormed no_directives (fun _ => True) opts)
      with (fuel := S fuel); try eassumption; auto.
    apply WellFormed_nil.
  - intros path.
    rewrite (@traverse_describes opts Hfrs (S fuel) nodes [] (STree []) m
               Hnodes (or_intror eq_refl) Hm path).
    split; [|auto]. intros [H|H]; [now apply InMap_nil in H | exact H].
Qed.

(** *** Inlining by the kind of the node *)

Lemma all_selections_In f nodes node :
  all_selections f nodes = true -> In node nodes -> all_nodes f node = true.
Proof.
  unfold all_selections. rewrite forallb_forall. auto.
Qed.

Section KindByName.
Variable frs : FragmentItem.
Hypothesis table_ok : all_fragments (kind_by_name frs) frs = true.

Lemma Requested_Inlined nodes path :
  Requested frs nodes path ->
  all_selections (kind_by_name frs) nodes = true ->
  Inlined frs nodes path.
Proof.
  induction 1 as [nodes d sels path HIn _ IH
                 |nodes node name fragment path HIn Hnamed Hl _ IH
                 |nodes node name HIn Hnamed Hl
                 |nodes node name path HIn Hnamed Hl _ IH]; intros Hall;
    pose proof (all_selections_In _ _ _ Hall HIn) as Hnode.
  - eapply Inlined_inline; [exact HIn|].
    apply IH. exact (all_nodes_getNodes _ _ Hnode).
  - apply all_nodes_here in Hnode.
    destruct Hnamed as [name d ss|name d]; simpl in Hnode; rewrite Hl in Hnode;
      [discriminate|].
    eapply Inlined_spread; [exact HIn | exact Hl |].
    apply IH. eapply all_fragments_lookup; eassumption.
  - apply all_nodes_here in Hnode.
    destruct Hnamed as [name d ss|name d]; simpl in Hnode; rewrite Hl in Hnode;
      [|discriminate].
    eapply Inlined_field; exact HIn.
  - pose proof (all_nodes_getNodes _ _ Hnode) as Hsub.
    apply all_nodes_here in Hnode.
    destruct Hnamed as [name d ss|name d]; simpl in Hnode; rewrite Hl in Hnode;
      [|discriminate].
    eapply Inlined_below; [exact HIn|]. apply IH. exact Hsub.
Qed.

Lemma Inlined_Requested nodes path :
  Inlined frs nodes path ->
  all_selections (kind_by_name frs) nodes = true ->
  Requested frs nodes path.
Proof.
  induction 1 as [nodes d sels path HIn _ IH
                 |nodes name d fragment path HIn Hl _ IH
                 |nodes name d ss HIn
                 |nodes name d ss path HIn _ IH]; intros Hall;
    pose proof (all_selections_In _ _ _ Hall HIn) as Hnode.
  - eapply Requested_inline; [exact HIn|].
    apply IH. exact (all_nodes_getNodes _ _ Hnode).
  - eapply Requested_spread; [exact HIn | constructor | exact Hl |].
    apply IH. eapply all_fragments_lookup; eassumption.
  - apply all_nodes_here in Hnode. simpl in Hnode.
    destruct (lookup name frs) eqn:Hl; [discriminate|].
    eapply Requested_field; [exact HIn | constructor | exact Hl].
  - pose proof (all_nodes_getNodes _ _ Hnode) as Hsub.
    apply all_nodes_here in Hnode. simpl in Hnode.
    destruct (lookup name frs) eqn:Hl; [discriminate|].
    eapply Requested_below; [exact HIn | constructor | exact Hl |].
    apply IH. exact Hsub.
Qed.
End KindByName.

(** C1, the claim fails on [{ user { ...user } }] with
    [fragment user on User { name }]: the walker tells a fragment reference
    by its name alone, although it tells an inline fragment by the kind of
    the node, so the field [user] is taken for the fragment [user]; the map
    is [{ name: false }] and lacks the requested field [user]. *)
Lemma field_named_like_fragment :
  traverse 2 ClashExample.opts ClashExample.selection [] (STree [])
  = Ok [("name", MFalse)]
  /\ Inlined ClashExample.table ClashExample.selection ["user"]
  /\ ~ InMap ["user"] [("name", MFalse)]
  /\ ~ PresenceMapIsInlining.
Proof.
  assert (Hreq : Inlined ClashExample.table ClashExample.selection ["user"]).
  { eapply Inlined_field. now left. }
  assert (Hnot : ~ InMap ["user"] [("name", MFalse)]).
  { simpl. intros H. now apply H. }
  split; [reflexivity|]. split; [exact Hreq|]. split; [exact Hnot|].
  intros H. apply Hnot.
  apply (H ClashExample.opts ClashExample.selection 2 [("name", MFalse)]
           eq_refl eq_refl eq_refl ["user"]).
  exact Hreq.
Qed.

(** X18: for a selection and a fragment table without directives, whose
    names are GraphQL names that name no inherited member, and in which no
    field is named like a fragment of the table and every spread names one,
    walked from the empty map under the compiled empty skip list, the
    walker answers within some budget whenever the inlining is finite, and
    its map holds at every level exactly the names reached by inlining
    every inline fragment and every fragment spread, each name once per
    level however often it is requested. *)
Theorem traverse_presence_map :
  forall (opts : TraverseOptions) (nodes : list SelectionNode),
    walk_safe opts nodes = true ->
    all_selections no_directives nodes = true ->
    all_fragments no_directives (fragments opts) = true ->
    all_selections (kind_by_name (fragments opts)) nodes = true ->
    all_fragments (kind_by_name (fragments opts)) (fragments opts) = true ->
    Finite (fragments opts) nodes ->
    skipTree [] = Ok []
    /\ exists n, forall fuel, n <= fuel ->
         exists m,
           traverse fuel opts nodes [] (STree []) = Ok m
           /\ WellFormed (fun _ => True) m
           /\ forall path,
                InMap path m <-> Inlined (fragments opts) nodes path.
Proof.
  intros opts nodes _ Hnodes Hfrs Hkind Htable Hfin. split; [reflexivity|].
  destruct (@traverse_requested opts nodes Hnodes Hfrs Hfin) as [n Hn].
  exists n. intros fuel Hfuel.
  destruct (Hn fuel Hfuel) as (m & Hm & Hwf & Hpaths).
  exists m. split; [exact Hm|]. split; [exact Hwf|].
  intros path. rewrite Hpaths. split; intros H.
  - now apply Requested_Inlined.
  - now apply Inlined_Requested.
Qed.

Lemma traverse_presence_map_witness :
  skipTree [] = Ok []
  /\ exists n, forall fuel, n <= fuel ->
       exists m,
         traverse fuel InliningExample.opts InliningExample.selection []
                  (STree []) = Ok m
         /\ WellFormed (fun _ => True) m
         /\ forall path,
              InMap path m
              <-> Inlined InliningExample.table InliningExample.selection path.
Proof.
  apply (@traverse_presence_map InliningExample.opts InliningExample.selection).
  - reflexivity.
  - reflexivity.
  - reflexivity.
  - reflexivity.
  - reflexivity.
  - unfold InliningExample.selection. simpl. finite_inlining.
Defined.

(** The map of the example: [a] is requested three times and [b] twice. *)
Example inlining_example_map :
  traverse 3 InliningExample.opts InliningExample.selection [] (STree [])
  = Ok [("a", MTree [("x", MFalse); ("c", MFalse)]); ("b", MFalse)].
Proof.
  reflexivity.
Qed.

(** * Further properties *)

(** ** The walker under directives and skip rules *)

Lemma Selected_nil opts skip path : ~ Selected opts skip [] path.
Proof.
  intros H. inversion H; subst; contradiction.
Qed.

Lemma Selected_cons opts skip node rest path :
  Selected opts skip (node :: rest) path
  <-> Selected opts skip [node] path \/ Selected opts skip rest path.
Proof.
  split.
  - intros H. inversion H as [sk ns d sels p HIn Hp Hr
                              |sk ns n name fr p HIn Hp Hn Hl Hr
                              |sk ns n name HIn Hp Hn Hl Hs
                              |sk ns n name p HIn Hp Hn Hl Hs Hr];
      subst; (destruct HIn as [E|HIn]; [subst node; left | right]).
    + eapply Selected_inline; [now left | eassumption..].
    + eapply Selected_inline; eassumption.
    + eapply Selected_fragment; [now left | eassumption..].
    + eapply Selected_fragment; eassumption.
    + eapply Selected_field; [now left | eassumption..].
    + eapply Selected_field; eassumption.
    + eapply Selected_below; [now left | eassumption..].
    + eapply Selected_below; eassumption.
  - intros [H|H];
      inversion H as [sk ns d sels p HIn Hp Hr
                     |sk ns n name fr p HIn Hp Hn Hl Hr
                     |sk ns n name HIn Hp Hn Hl Hs
                     |sk ns n name p HIn Hp Hn Hl Hs Hr]; subst.
    + destruct HIn as [E|[]]; subst node.
      eapply Selected_inline; [now left | eassumption..].
    + destruct HIn as [E|[]]; subst node.
      eapply Selected_fragment; [now left | eassumption..].
    + destruct HIn as [E|[]]; subst node.
      eapply Selected_field; [now left | eassumption..].
    + destruct HIn as [E|[]]; subst node.
      eapply Selected_below; [now left | eassumption..].
    + eapply Selected_inline; [right; eassumption | eassumption..].
    + eapply Selected_fragment; [right; eassumption | eassumption..].
    + eapply Selected_field; [right; eassumption | eassumption..].
    + eapply Selected_below; [right; eassumption | eassumption..].
Qed.

Lemma Selected_rejected opts skip node path :
  permitted opts node = false -> ~ Selected opts skip [node] path.
Proof.
  intros Hp H.
  inversion H as [sk ns d sels p HIn Hp' Hr
                 |sk ns n name fr p HIn Hp' Hn Hl Hr
                 |sk ns n name HIn Hp' Hn Hl Hs
                 |sk ns n name p HIn Hp' Hn Hl Hs Hr]; subst;
    (destruct HIn as [E|[]]; subst); congruence.
Qed.

Lemma Selected_inline_one opts skip d sels path :
  permitted opts (InlineFragment d sels) = true ->
  Selected opts skip [InlineFragment d sels] path <-> Selected opts skip sels path.
Proof.
  intros Hp. split.
  - intros H. inversion H as [sk ns d' sels' p HIn Hp' Hr
                              |sk ns n name fr p HIn Hp' Hn Hl Hr
                              |sk ns n name HIn Hp' Hn Hl Hs
                              |sk ns n name p HIn Hp' Hn Hl Hs Hr];
      subst; destruct HIn as [E|[]]; try (subst; inversion Hn; fail).
    now injection E as <- <-.
  - intros H. eapply Selected_inline; [now left | assumption | exact H].
Qed.

Lemma Selected_fragment_one opts skip node name fragment path :
  permitted opts node = true ->
  Named node name -> lookup name (fragments opts) = Some fragment ->
  Selected opts skip [node] path
  <-> Selected opts skip (frag_selectionSet fragment) path.
Proof.
  intros Hp Hnamed Hfr. split.
  - intros H. inversion H as [sk ns d' sels' p HIn Hp' Hr
                              |sk ns n name' fr p HIn Hp' Hn Hl Hr
                              |sk ns n name' HIn Hp' Hn Hl Hs
                              |sk ns n name' p HIn Hp' Hn Hl Hs Hr];
      subst; destruct HIn as [E|[]]; subst.
    + inversion Hnamed.
    + rewrite (Named_fun Hn Hnamed) in Hl. congruence.
    + rewrite (Named_fun Hn Hnamed) in Hl. congruence.
    + rewrite (Named_fun Hn Hnamed) in Hl. congruence.
  - intros H. eapply Selected_fragment; [now left | eassumption..].
Qed.

Lemma Selected_field_one opts skip node name path :
  permitted opts node = true ->
  Named node name -> lookup name (fragments opts) = None ->
  Selected opts skip [node] path
  <-> verifySkip name skip <> STrue
      /\ (path = [name]
          \/ exists below,
               path = name :: below
               /\ Selected opts (verifySkip name skip) (getNodes node) below).
Proof.
  intros Hp Hnamed Hfr. split.
  - intros H. inversion H as [sk ns d' sels' p HIn Hp' Hr
                              |sk ns n name' fr p HIn Hp' Hn Hl Hr
                              |sk ns n name' HIn Hp' Hn Hl Hs
                              |sk ns n name' p HIn Hp' Hn Hl Hs Hr];
      subst; destruct HIn as [E|[]]; subst.
    + inversion Hnamed.
    + rewrite (Named_fun Hn Hnamed) in Hl. congruence.
    + rewrite (Named_fun Hn Hnamed) in *. split; [assumption | now left].
    + rewrite (Named_fun Hn Hnamed) in *. split; [assumption | right; eauto].
  - intros [Hs [->|(below & -> & Hb)]].
    + eapply Selected_field; [now left | eassumption..].
    + eapply Selected_below; [now left | eassumption..].
Qed.

Section WalkerSelects.
Variable opts : TraverseOptions.

Lemma traverse_named_selects rec node name root skip m :
  selects opts rec -> permitted opts node = true -> Named node name ->
  traverse_named rec opts name (getNodes node) root skip = Ok m ->
  forall path,
    InMap path m <-> InMap path root \/ Selected opts skip [node] path.
Proof.
  intros Hrec Hp Hnamed. unfold traverse_named.
  destruct (lookup name (fragments opts)) as [fragment|] eqn:Ef.
  - intros H path.
    rewrite (@Selected_fragment_one opts skip node name fragment path Hp Hnamed Ef).
    eapply Hrec; exact H.
  - intros H path.
    rewrite (@Selected_field_one opts skip node name path Hp Hnamed Ef).
    destruct (verifySkip name skip) as [| |scope] eqn:Es.
    + destruct (getNodes node) as [|n ns] eqn:En.
      * assert (E : m = set name match lookup name root with
                                 | Some (MTree sub) => MTree sub
                                 | _ => MFalse
                                 end root).
        { destruct (lookup name root) as [[|sub]|]; simpl in H; congruence. }
        rewrite E.
        rewrite (@InMap_set_field root name _ path (fun q => Selected opts SFalse [] q)).
        -- intuition congruence.
        -- intros q Hq. destruct (lookup name root) as [[|sub]|]; split;
             try tauto; (intros [H0|Hr]; [tauto | now apply Selected_nil in Hr]).
      * assert (E : exists child',
                   rec (n :: ns) match lookup name root with
                                 | Some (MTree sub) => sub
                                 | _ => []
                                 end SFalse = Ok child'
                   /\ m = set name (MTree child') root).
        { destruct (lookup name root) as [[|sub]|]; simpl in H;
            apply bind_Ok in H as (child' & Hc & [= <-]);
            exists child'; rewrite set_set; auto. }
        destruct E as (child' & Hc & ->).
        rewrite (@InMap_set_field root name _ path
                   (fun q => Selected opts SFalse (n :: ns) q)).
        -- intuition congruence.
        -- intros q Hq. rewrite (Hrec _ _ _ _ Hc q).
           destruct (lookup name root) as [[|sub]|]; try tauto;
             split; try tauto; intros [H0|H0]; auto; now apply InMap_nil in H0.
    + injection H as <-. split; [auto|]. intros [H|[H _]]; [assumption | congruence].
    + destruct (getNodes node) as [|n ns] eqn:En.
      * assert (E : m = set name match lookup name root with
                                 | Some (MTree sub) => MTree sub
                                 | _ => MFalse
                                 end root).
        { destruct (lookup name root) as [[|sub]|]; simpl in H; congruence. }
        rewrite E.
        rewrite (@InMap_set_field root name _ path
                   (fun q => Selected opts (STree scope) [] q)).
        -- intuition congruence.
        -- intros q Hq. destruct (lookup name root) as [[|sub]|]; split;
             try tauto; (intros [H0|Hr]; [tauto | now apply Selected_nil in Hr]).
      * assert (E : exists child',
                   rec (n :: ns) match lookup name root with
                                 | Some (MTree sub) => sub
                                 | _ => []
                                 end (STree scope) = Ok child'
                   /\ m = set name (MTree child') root).
        { destruct (lookup name root) as [[|sub]|]; simpl in H;
            apply bind_Ok in H as (child' & Hc & [= <-]);
            exists child'; rewrite set_set; auto. }
        destruct E as (child' & Hc & ->).
        rewrite (@InMap_set_field root name _ path
                   (fun q => Selected opts (STree scope) (n :: ns) q)).
        -- intuition congruence.
        -- intros q Hq. rewrite (Hrec _ _ _ _ Hc q).
           destruct (lookup name root) as [[|sub]|]; try tauto;
             split; try tauto; intros [H0|H0]; auto; now apply InMap_nil in H0.
Qed.

Lemma traverse_node_selects rec node root skip m :
  selects opts rec ->
  traverse_node rec opts node root skip = Ok m ->
  forall path,
    InMap path m <-> InMap path root \/ Selected opts skip [node] path.
Proof.
  intros Hrec. unfold traverse_node.
  destruct (withVars opts && negb (verifyDirectives (node_directives node) (vars opts)))
    eqn:Ed.
  - intros [= <-] path. split; [auto|]. intros [H|H]; [assumption|].
    exfalso. eapply Selected_rejected; [|exact H].
    unfold permitted. now rewrite Ed.
  - assert (Hp : permitted opts node = true) by (unfold permitted; now rewrite Ed).
    destruct node as [name d ss|name d|d sels].
    + apply traverse_named_selects; auto. constructor.
    + apply traverse_named_selects; auto. constructor.
    + intros H path. rewrite (@Selected_inline_one opts skip d sels path Hp).
      destruct sels as [|n ns]; simpl in H.
      * injection H as <-. split; [auto|].
        intros [H|H]; [assumption | now apply Selected_nil in H].
      * eapply Hrec; eassumption.
Qed.

Lemma traverse_loop_selects rec :
  selects opts rec -> selects opts (traverse_loop rec opts).
Proof.
  intros Hrec nodes. induction nodes as [|node rest IH];
    intros root skip m; simpl.
  - intros [= <-] path. split; [auto|].
    intros [H|H]; [assumption | now apply Selected_nil in H].
  - intros H path. apply bind_Ok in H as (root' & Hn & Hl).
    rewrite (@Selected_cons opts skip node rest path).
    rewrite (IH root' skip m Hl path).
    rewrite (@traverse_node_selects rec node root skip root' Hrec Hn path).
    tauto.
Qed.

Lemma traverse_selects fuel : selects opts (traverse fuel opts).
Proof.
  induction fuel as [|fuel IH].
  - intros nodes root skip m. discriminate.
  - apply traverse_loop_selects. exact IH.
Qed.
End WalkerSelects.

(** X1: whatever the directives, the variables and the skip scope, for
    names that name no inherited member and plain wildcard keys, the map
    the walker returns holds the key paths of the map it was given and the
    selected key paths of the nodes, and no other. *)
Theorem traverse_selected_paths :
  forall (fuel : nat) (opts : TraverseOptions) (nodes : list SelectionNode)
         (root : MapResult) (skip : SkipValue) (m : MapResult),
    walk_safe opts nodes = true ->
    skip_plain skip = true ->
    traverse fuel opts nodes root skip = Ok m ->
    forall path,
      InMap path m <-> InMap path root \/ Selected opts skip nodes path.
Proof.
  intros fuel opts nodes root skip m _ _. apply (traverse_selects opts fuel).
Qed.

(** ** Selections are finite trees *)

Fixpoint all_nodes_always (f : SelectionNode -> bool)
    (Hf : forall node, f node = true) (node : SelectionNode) :
  all_nodes f node = true.
Proof.
  destruct node as [name d [sels|]|name d|d sels]; simpl; rewrite Hf;
    try reflexivity.
  - induction sels as [|n ns IH]; simpl; [reflexivity|].
    now rewrite (all_nodes_always f Hf), IH.
  - induction sels as [|n ns IH]; simpl; [reflexivity|].
    now rewrite (all_nodes_always f Hf), IH.
Qed.

Lemma all_selections_always f nodes :
  (forall node, f node = true) -> all_selections f nodes = true.
Proof.
  intros Hf. unfold all_selections. apply forallb_forall.
  intros n _. now apply all_nodes_always.
Qed.

Lemma all_fragments_always f frs :
  (forall node, f node = true) -> all_fragments f frs = true.
Proof.
  intros Hf. unfold all_fragments. apply forallb_forall.
  intros e _. now apply all_selections_always.
Qed.

Fixpoint Finite_without_fragments_node (node : SelectionNode) :
  forall rest, Finite [] rest -> Finite [] (node :: rest).
Proof.
  destruct node as [name d [sels|]|name d|d sels]; intros rest Hrest.
  - eapply Finite_field; [constructor | reflexivity | | exact Hrest].
    simpl. induction sels as [|n ns IH]; [constructor|].
    apply Finite_without_fragments_node. exact IH.
  - eapply Finite_field; [constructor | reflexivity | constructor | exact Hrest].
  - eapply Finite_field; [constructor | reflexivity | constructor | exact Hrest].
  - apply Finite_inline; [|exact Hrest].
    induction sels as [|n ns IH]; [constructor|].
    apply Finite_without_fragments_node. exact IH.
Qed.

Lemma Finite_without_fragments nodes : Finite [] nodes.
Proof.
  induction nodes as [|n ns IH]; [constructor|].
  now apply Finite_without_fragments_node.
Qed.

(** ** Branches and key paths *)

Lemma InMap_cons_tree k r rest m :
  InMap (k :: r :: rest) m
  <-> exists sub, lookup k m = Some (MTree sub) /\ InMap (r :: rest) sub.
Proof.
  cbn [InMap]. destruct (lookup k m) as [[|sub]|]; split;
    try tauto; try (intros (s & [=] & _); fail).
  - intros H. eauto.
  - intros (s & [= <-] & H). exact H.
Qed.

Lemma InMap_branchLoop segments : forall tree path,
  path <> [] ->
  InMap path (branchLoop segments tree) <-> InMap (segments ++ path) tree.
Proof.
  induction segments as [|segment rest IH]; intros tree path Hne; [reflexivity|].
  destruct (rest ++ path) as [|r rp] eqn:E.
  { apply app_eq_nil in E as [_ E]. congruence. }
  change ((segment :: rest) ++ path) with (segment :: (rest ++ path)).
  rewrite E, InMap_cons_tree, <- E. cbn [branchLoop].
  destruct (lookup segment tree) as [[|sub]|].
  - split; [intros H; now apply InMap_nil in H | intros (s & [=] & _)].
  - rewrite IH by assumption. split; [eauto | intros (s & [= <-] & H); exact H].
  - split; [intros H; now apply InMap_nil in H | intros (s & [=] & _)].
Qed.

(** X2: the key paths of the branch that [getBranch] returns for a path
    [p] that is not empty, and whose segments name no inherited member, are
    the key paths of the map that begin with the segments of [p], with
    these segments removed. *)
Theorem getBranch_paths :
  forall (tree : MapResult) (p : string) (path : list string),
    p <> "" -> path <> [] ->
    forallb own_only (split_dot p) = true ->
    InMap path (getBranch tree (Some p)) <-> InMap (split_dot p ++ path) tree.
Proof.
  intros tree p path Hp Hpath _. rewrite getBranch_path by assumption.
  now apply InMap_branchLoop.
Qed.

Lemma getBranch_paths_witness :
  InMap ["d"] (getBranch [("a", MTree [("c", MTree [("d", MFalse)])])] (Some "a.c"))
  <-> InMap (split_dot "a.c" ++ ["d"]) [("a", MTree [("c", MTree [("d", MFalse)])])].
Proof.
  apply (@getBranch_paths [("a", MTree [("c", MTree [("d", MFalse)])])] "a.c" ["d"]);
    [discriminate | discriminate | reflexivity].
Defined.

Lemma split_from_dot acc a b :
  split_from acc (a ++ String "."%char b) = split_from acc a ++ split_from [] b.
Proof.
  revert acc. induction a as [|c a IH]; intros acc; simpl.
  - reflexivity.
  - destruct (Ascii.eqb c "."); simpl; now rewrite IH.
Qed.

Lemma branchLoop_nil segments : segments <> [] -> branchLoop segments [] = [].
Proof.
  destruct segments; [congruence | reflexivity].
Qed.

Lemma branchLoop_app l1 l2 : forall tree,
  branchLoop (l1 ++ l2) tree = branchLoop l2 (branchLoop l1 tree).
Proof.
  induction l1 as [|s l1 IH]; intros tree; [reflexivity|].
  simpl. destruct (lookup s tree) as [[|sub]|]; auto;
    destruct l2; reflexivity.
Qed.

Lemma split_from_not_nil acc s : split_from acc s <> [].
Proof.
  revert acc. induction s as [|c s IH]; intros acc; simpl; [discriminate|].
  destruct (Ascii.eqb c "."); [discriminate | apply IH].
Qed.

(** X3: extracting the branch [q] of the branch [p] is extracting the
    branch [p.q], for paths [p] and [q] that are not empty and whose
    segments name no inherited member. *)
Theorem getBranch_getBranch :
  forall (tree : MapResult) (p q : string),
    p <> "" -> q <> "" ->
    forallb own_only (split_dot p) = true ->
    forallb own_only (split_dot q) = true ->
    getBranch (getBranch tree (Some p)) (Some q)
    = getBranch tree (Some (p ++ "." ++ q)%string).
Proof.
  intros tree p q Hp Hq _ _.
  rewrite (@getBranch_path _ q Hq), (@getBranch_path tree p Hp).
  rewrite getBranch_path by (destruct p; [congruence | discriminate]).
  unfold split_dot. change ("." ++ q)%string with (String "."%char q).
  now rewrite split_from_dot, branchLoop_app.
Qed.

Lemma getBranch_getBranch_witness :
  getBranch
    (getBranch [("a", MTree [("b", MTree [("c", MTree [("d", MFalse)])])])]
               (Some "a.b"))
    (Some "c")
  = getBranch [("a", MTree [("b", MTree [("c", MTree [("d", MFalse)])])])]
              (Some "a.b.c").
Proof.
  apply (@getBranch_getBranch
           [("a", MTree [("b", MTree [("c", MTree [("d", MFalse)])])])]
           "a.b" "c"); [discriminate | discriminate | reflexivity | reflexivity].
Defined.

(** ** What the options remove *)

Lemma fieldsMap_walk fuel info options m :
  fieldsMap fuel (Some info) options = Ok m ->
  (verifyInfo (Some info) = None /\ m = [])
  \/ exists fieldNode rules tree,
       verifyInfo (Some info) = Some fieldNode
       /\ skipTree (skip_patterns options) = Ok rules
       /\ traverse fuel (walk_options info options) (selections_of fieldNode)
                   [] (STree rules) = Ok tree
       /\ m = getBranch tree (path (parseOptions options)).
Proof.
  unfold fieldsMap.
  destruct (verifyInfo (Some info)) as [fieldNode|]; [|intros [= <-]; now left].
  intros H. apply bind_Ok in H as (rules & Hr & H).
  apply bind_Ok in H as (tree & Ht & [= <-]).
  right. exists fieldNode, rules, tree. auto.
Qed.

Lemma getBranch_InMap_mono t1 t2 p :
  (forall path, InMap path t1 -> InMap path t2) ->
  forall path, InMap path (getBranch t1 p) -> InMap path (getBranch t2 p).
Proof.
  intros Hsub path. destruct p as [[|c s]|]; auto.
  destruct path as [|k rest]; [contradiction|].
  rewrite !getBranch_path, !InMap_branchLoop by discriminate. apply Hsub.
Qed.

Lemma Selected_inert opts skip nodes path :
  Selected opts skip nodes path ->
  forall skip', Inert skip' -> Selected opts skip' nodes path.
Proof.
  induction 1 as [sk ns d sels p HIn Hp _ IH
                 |sk ns n name fr p HIn Hp Hn Hl _ IH
                 |sk ns n name HIn Hp Hn Hl Hs
                 |sk ns n name p HIn Hp Hn Hl Hs _ IH]; intros skip' Hinert.
  - eapply Selected_inline; eauto.
  - eapply Selected_fragment; eauto.
  - eapply Selected_field; eauto.
    rewrite (@verifySkip_Inert name skip' Hinert). discriminate.
  - eapply Selected_below; eauto.
    + rewrite (@verifySkip_Inert name skip' Hinert). discriminate.
    + rewrite (@verifySkip_Inert name skip' Hinert). apply IH. now left.
Qed.

(** X4: skip patterns only remove.  For names, path segments and skip
    patterns that name no inherited member, a key path of the map that
    [fieldsMap] returns with the patterns is a key path of the map it
    returns for the same options without them. *)
Theorem skip_only_removes :
  forall (fuel fuel' : nat) (info : option GraphQLResolveInfo)
         (options : FieldsListOptions) (m m' : MapResult),
    info_safe info = true ->
    options_safe (Some options) = true ->
    fieldsMap fuel info (Some options) = Ok m ->
    fieldsMap fuel' info (Some (without_skip options)) = Ok m' ->
    forall path, InMap path m -> InMap path m'.
Proof.
  intros fuel fuel' [info|] options m m' _ _ H H'.
  2:{ injection H as <-. intros path Hp. now apply InMap_nil in Hp. }
  apply fieldsMap_walk in H as [[Hv ->]|(fn & rules & tree & Hv & Hr & Ht & ->)].
  { intros path Hp. now apply InMap_nil in Hp. }
  apply fieldsMap_walk in H' as [[Hv' ->]|(fn' & rules' & tree' & Hv' & Hr' & Ht' & ->)];
    [congruence|].
  assert (fn' = fn) by congruence. subst fn'.
  assert (rules' = []).
  { unfold skip_patterns, without_skip in Hr'. simpl in Hr'.
    destruct (withDirectives options); cbv in Hr'; congruence. }
  subst rules'.
  assert (Hpath : path (parseOptions (Some (without_skip options)))
                  = path (parseOptions (Some options))).
  { simpl. destruct (withDirectives options); reflexivity. }
  assert (Hopts : walk_options info (Some (without_skip options))
                  = walk_options info (Some options)).
  { unfold walk_options. simpl. destruct (withDirectives options); reflexivity. }
  rewrite Hpath, Hopts in *. apply getBranch_InMap_mono. intros p Hp.
  apply (traverse_selects _ _ _ _ _ Ht'). right.
  apply (traverse_selects _ _ _ _ _ Ht) in Hp as [Hp|Hp];
    [now apply InMap_nil in Hp|].
  eapply Selected_inert; [exact Hp | now right].
Qed.

Lemma Selected_without_directives opts skip nodes path :
  Selected opts skip nodes path ->
  forall opts',
    fragments opts' = fragments opts -> withVars opts' = false ->
    Selected opts' skip nodes path.
Proof.
  induction 1 as [sk ns d sels p HIn Hp _ IH
                 |sk ns n name fr p HIn Hp Hn Hl _ IH
                 |sk ns n name HIn Hp Hn Hl Hs
                 |sk ns n name p HIn Hp Hn Hl Hs _ IH]; intros opts' Hfr Hoff;
    assert (Hall : forall node, permitted opts' node = true)
      by (intros node; unfold permitted; now rewrite Hoff).
  - eapply Selected_inline; eauto.
  - eapply Selected_fragment; eauto. now rewrite Hfr.
  - eapply Selected_field; eauto. now rewrite Hfr.
  - eapply Selected_below; eauto. now rewrite Hfr.
Qed.

(** X5: directives only remove.  A key path of the map that [fieldsMap]
    returns for some options is a key path of the map it returns for the
    same options with [withDirectives: false]. *)
Theorem directives_only_remove :
  forall (fuel fuel' : nat) (info : option GraphQLResolveInfo)
         (options : FieldsListOptions) (m m' : MapResult),
    fieldsMap fuel info (Some options) = Ok m ->
    fieldsMap fuel' info (Some (without_directives options)) = Ok m' ->
    forall path, InMap path m -> InMap path m'.
Proof.
  intros fuel fuel' [info|] options m m' H H'.
  2:{ injection H as <-. intros path Hp. now apply InMap_nil in Hp. }
  apply fieldsMap_walk in H as [[Hv ->]|(fn & rules & tree & Hv & Hr & Ht & ->)].
  { intros path Hp. now apply InMap_nil in Hp. }
  apply fieldsMap_walk in H' as [[Hv' ->]|(fn' & rules' & tree' & Hv' & Hr' & Ht' & ->)];
    [congruence|].
  assert (fn' = fn) by congruence. subst fn'.
  assert (Hskip : skip_patterns (Some (without_directives options))
                  = skip_patterns (Some options)).
  { unfold skip_patterns. simpl. destruct (withDirectives options); reflexivity. }
  assert (rules' = rules) by (rewrite Hskip in Hr'; congruence). subst rules'.
  assert (Hpath : path (parseOptions (Some (without_directives options)))
                  = path (parseOptions (Some options))).
  { simpl. destruct (withDirectives options); reflexivity. }
  rewrite Hpath. apply getBranch_InMap_mono. intros p Hp.
  apply (traverse_selects _ _ _ _ _ Ht'). right.
  apply (traverse_selects _ _ _ _ _ Ht) in Hp as [Hp|Hp];
    [now apply InMap_nil in Hp|].
  eapply Selected_without_directives; [exact Hp | reflexivity | reflexivity].
Qed.

Lemma Selected_same_nodes opts skip nodes nodes' path :
  (forall node, In node nodes -> In node nodes') ->
  Selected opts skip nodes path -> Selected opts skip nodes' path.
Proof.
  intros Hincl H.
  inversion H as [sk ns d sels p HIn Hp Hr
                 |sk ns n name fr p HIn Hp Hn Hl Hr
                 |sk ns n name HIn Hp Hn Hl Hs
                 |sk ns n name p HIn Hp Hn Hl Hs Hr]; subst.
  - eapply Selected_inline; eauto.
  - eapply Selected_fragment; eauto.
  - eapply Selected_field; eauto.
  - eapply Selected_below; eauto.
Qed.

(** X6: the order of sibling selections and their repetition do not change
    which key paths the walker adds: two lists with the same nodes, walked
    from the same map, give maps with the same key paths. *)
Theorem traverse_same_nodes :
  forall (fuel fuel' : nat) (opts : TraverseOptions)
         (nodes nodes' : list SelectionNode) (root : MapResult)
         (skip : SkipValue) (m m' : MapResult),
    (forall node, In node nodes <-> In node nodes') ->
    traverse fuel opts nodes root skip = Ok m ->
    traverse fuel' opts nodes' root skip = Ok m' ->
    forall path, InMap path m <-> InMap path m'.
Proof.
  intros fuel fuel' opts nodes nodes' root skip m m' Hsame H H' path.
  rewrite (traverse_selects _ _ _ _ _ H path).
  rewrite (traverse_selects _ _ _ _ _ H' path).
  split; (intros [Hp|Hp]; [now left | right]);
    (eapply Selected_same_nodes; [|exact Hp]); intros node; apply Hsame.
Qed.

(** ** A single skip pattern *)

Lemma verifySkip_single name s v :
  has_star s = false -> v <> SFalse ->
  verifySkip name (STree [(s, v)]) = if String.eqb name s then v else SFalse.
Proof.
  intros Hs Hv. unfold verifySkip. cbn [lookup keys map fst filter].
  rewrite Hs. destruct (String.eqb name s); [|reflexivity].
  destruct v; congruence.
Qed.

Lemma scope_step p name :
  star_free p ->
  (verifySkip name (pattern_scope p) = STrue
   /\ forall below, blocks p (name :: below))
  \/ exists p',
       star_free p'
       /\ verifySkip name (pattern_scope p) = pattern_scope p'
       /\ forall below, blocks p (name :: below) <-> blocks p' below.
Proof.
  intros Hp. destruct p as [[[|s rest] last]|].
  - simpl in Hp. inversion Hp as [|? ? Hlast _]; subst.
    cbn [pattern_scope chain]. rewrite verifySkip_single by (auto; discriminate).
    destruct (String.eqb_spec name last) as [->|Hne].
    + left. split; [reflexivity|]. intros below. now exists below.
    + right. exists None. split; [exact I|]. split; [reflexivity|].
      intros below. split; [|contradiction].
      intros (r & [= E _]). congruence.
  - simpl in Hp. inversion Hp as [|? ? Hs Hrest]; subst.
    cbn [pattern_scope chain]. rewrite verifySkip_single by (auto; discriminate).
    right. destruct (String.eqb_spec name s) as [->|Hne].
    + exists (Some (rest, last)). split; [exact Hrest|]. split; [reflexivity|].
      intros below. simpl. split.
      * intros (r & [= E]). now exists r.
      * intros (r & ->). now exists r.
    + exists None. split; [exact I|]. split; [reflexivity|].
      intros below. split; [|contradiction].
      intros (r & [= E _]). congruence.
  - right. exists None. split; [exact I|]. split; [reflexivity|]. tauto.
Qed.

Lemma blocks_nil p : ~ blocks p [].
Proof.
  destruct p as [[segs last]|]; simpl; [|tauto].
  intros (r & E). symmetry in E. apply app_eq_nil in E as [E _].
  apply app_eq_nil in E as [_ E]. discriminate.
Qed.

Lemma pattern_scope_not_true p : pattern_scope p <> STrue.
Proof.
  destruct p as [[segs last]|]; discriminate.
Qed.

Lemma Selected_under_pattern opts skip nodes path :
  Selected opts skip nodes path ->
  forall p, star_free p -> skip = pattern_scope p ->
    Selected opts SFalse nodes path /\ ~ blocks p path.
Proof.
  induction 1 as [sk ns d sels pa HIn Hp _ IH
                 |sk ns n name fr pa HIn Hp Hn Hl _ IH
                 |sk ns n name HIn Hp Hn Hl Hs
                 |sk ns n name pa HIn Hp Hn Hl Hs _ IH]; intros p Hfree ->.
  - destruct (IH p Hfree eq_refl) as [H1 H2]. split; [|exact H2].
    eapply Selected_inline; eauto.
  - destruct (IH p Hfree eq_refl) as [H1 H2]. split; [|exact H2].
    eapply Selected_fragment; eauto.
  - split.
    + eapply Selected_field; eauto. discriminate.
    + destruct (@scope_step p name Hfree) as [[Ht _]|(p' & _ & _ & Hb)];
        [congruence|].
      rewrite Hb. apply blocks_nil.
  - destruct (@scope_step p name Hfree) as [[Ht _]|(p' & Hfree' & Hv & Hb)];
      [congruence|].
    destruct (IH p' Hfree' Hv) as [H1 H2]. split.
    + eapply Selected_below; eauto. discriminate.
    + now rewrite Hb.
Qed.

Lemma Selected_off_pattern opts skip nodes path :
  Selected opts skip nodes path ->
  skip = SFalse ->
  forall p, star_free p -> ~ blocks p path ->
    Selected opts (pattern_scope p) nodes path.
Proof.
  induction 1 as [sk ns d sels pa HIn Hp _ IH
                 |sk ns n name fr pa HIn Hp Hn Hl _ IH
                 |sk ns n name HIn Hp Hn Hl Hs
                 |sk ns n name pa HIn Hp Hn Hl Hs _ IH];
    intros -> p Hfree Hnb.
  - eapply Selected_inline; eauto.
  - eapply Selected_fragment; eauto.
  - eapply Selected_field; eauto.
    destruct (@scope_step p name Hfree) as [[_ Hb]|(p' & _ & Hv & _)].
    + exfalso. apply Hnb, Hb.
    + rewrite Hv. apply pattern_scope_not_true.
  - destruct (@scope_step p name Hfree) as [[_ Hb]|(p' & Hfree' & Hv & Hb)].
    + exfalso. apply Hnb, Hb.
    + eapply Selected_below; eauto.
      * rewrite Hv. apply pattern_scope_not_true.
      * rewrite Hv. apply IH; [reflexivity | assumption |]. now rewrite <- Hb.
Qed.

Lemma has_star_not_wildcard s : has_star s = false -> s <> "*".
Proof.
  intros H ->. discriminate.
Qed.

(** X7: one skip pattern without a star removes exactly the key paths that
    begin with its segments.  With [skip: [pattern]] and no [path] option,
    for names and pattern segments that name no inherited member, the key
    paths of the map are those of the map returned without skip patterns
    that do not begin with the segments of the pattern. *)
Theorem single_pattern_removes_its_extensions :
  forall (fuel fuel' : nat) (info : option GraphQLResolveInfo)
         (options : FieldsListOptions) (pattern : string) (m m' : MapResult),
    info_safe info = true ->
    options_safe (Some options) = true ->
    skip options = Some [pattern] ->
    path options = None ->
    Forall (fun s => has_star s = false) (split_dot pattern) ->
    fieldsMap fuel info (Some options) = Ok m ->
    fieldsMap fuel' info (Some (without_skip options)) = Ok m' ->
    forall p, InMap p m <-> InMap p m' /\ ~ Prefixed (split_dot pattern) p.
Proof.
  intros fuel fuel' [info|] options pattern m m' _ _ Hskip Hpath Hfree H H'.
  2:{ injection H as <-. intros p. split; [intros Hp; now apply InMap_nil in Hp|].
      intros [Hp _]. injection H' as <-. exact Hp. }
  destruct (exists_last (@split_from_not_nil [] pattern)) as (segs & last & Hsplit).
  fold (split_dot pattern) in Hsplit. rewrite Hsplit in *.
  apply fieldsMap_walk in H as [[Hv ->]|(fn & rules & tree & Hv & Hr & Ht & ->)].
  { apply fieldsMap_walk in H' as [[_ ->]|(fn' & _ & _ & Hv' & _)]; [|congruence].
    intros p. split; [intros Hp; now apply InMap_nil in Hp | tauto]. }
  apply fieldsMap_walk in H' as [[Hv' ->]|(fn' & rules' & tree' & Hv' & Hr' & Ht' & ->)];
    [congruence|].
  assert (fn' = fn) by congruence. subst fn'.
  assert (rules' = []).
  { unfold skip_patterns, without_skip in Hr'. simpl in Hr'.
    destruct (withDirectives options); cbv in Hr'; congruence. }
  subst rules'.
  assert (Hrules : rules = chain segs last).
  { assert (Hpat : skip_patterns (Some options) = [pattern]).
    { unfold skip_patterns. simpl.
      destruct (withDirectives options); simpl; now rewrite Hskip. }
    rewrite Hpat in Hr. unfold skipTree, skipPatterns in Hr.
    rewrite Hsplit in Hr.
    destruct (@skipProps_chain segs last) as [Hc _].
    { eapply Forall_impl; [|exact Hfree]. apply has_star_not_wildcard. }
    rewrite Hc in Hr. simpl in Hr. congruence. }
  subst rules.
  assert (Hp1 : path (parseOptions (Some options)) = None).
  { simpl. destruct (withDirectives options); exact Hpath. }
  assert (Hp2 : path (parseOptions (Some (without_skip options))) = None).
  { simpl. destruct (withDirectives options); exact Hpath. }
  assert (Hopts : walk_options info (Some (without_skip options))
                  = walk_options info (Some options)).
  { unfold walk_options. simpl. destruct (withDirectives options); reflexivity. }
  rewrite Hp1, Hp2, Hopts in *. cbn [getBranch]. intros p.
  rewrite (traverse_selects _ _ _ _ _ Ht p).
  rewrite (traverse_selects _ _ _ _ _ Ht' p).
  split.
  - intros [Hp|Hp]; [now apply InMap_nil in Hp|].
    destruct (@Selected_under_pattern _ _ _ _ Hp (Some (segs, last)) Hfree eq_refl)
      as [Hs Hnb].
    split; [|exact Hnb]. right. eapply Selected_inert; [exact Hs | now right].
  - intros [[Hp|Hp] Hnb]; [now apply InMap_nil in Hp|]. right.
    apply (@Selected_off_pattern _ SFalse _ _) with (p := Some (segs, last));
      auto.
    eapply Selected_inert; [exact Hp | now left].
Qed.

(** ** Dot-paths as branch selectors *)

Lemma split_from_dot_free s : forall acc,
  has_dot s = false -> split_from acc s = [rev_string acc s].
Proof.
  induction s as [|c s IH]; intros acc Hs; simpl in *; [reflexivity|].
  apply orb_false_iff in Hs as [Hc Hs]. rewrite Hc. now rewrite IH.
Qed.

Lemma split_dot_fold path : forall node,
  node <> "" -> Forall GoodName path ->
  split_dot (fold_left toDotNotation path node) = split_dot node ++ path.
Proof.
  induction path as [|p rest IH]; intros node Hne Hall; simpl.
  - now rewrite app_nil_r.
  - inversion Hall as [|? ? Hp Hrest]; subst.
    apply name_ok_inv in Hp as [_ Hdot].
    rewrite IH; [| destruct node; [congruence | discriminate] | assumption].
    destruct node as [|c node]; [congruence|].
    unfold toDotNotation, split_dot.
    change ("." ++ p)%string with (String "."%char p).
    rewrite split_from_dot, (@split_from_dot_free p [] Hdot).
    now rewrite <- app_assoc.
Qed.

Lemma split_dot_dotted path :
  Forall GoodName path -> path <> [] -> split_dot (dotted path) = path.
Proof.
  intros Hall Hne. destruct path as [|p rest]; [congruence|].
  inversion Hall as [|? ? Hp Hrest]; subst.
  unfold dotted. cbn [fold_left toDotNotation].
  apply name_ok_inv in Hp as [Hp Hdot].
  rewrite split_dot_fold by assumption.
  unfold split_dot. now rewrite (@split_from_dot_free p [] Hdot).
Qed.

(** X8: for keys that are not empty and hold no dot, splitting the
    dot-path of a key path gives the key path back, and the dot-path of a
    key path that leads to a sub-map, given as the [path] option, selects
    that sub-map. *)
Theorem dotted_path_selects_branch :
  forall (path : list string),
    Forall GoodName path -> path <> [] ->
    split_dot (dotted path) = path
    /\ forall tree branch,
         Resolves tree path branch ->
         getBranch tree (Some (dotted path)) = branch.
Proof.
  intros path Hall Hne.
  pose proof (split_dot_dotted Hall Hne) as Hsplit. split; [exact Hsplit|].
  intros tree branch Hres.
  assert (Hd : dotted path <> "").
  { intros E. rewrite E in Hsplit. cbv in Hsplit. subst path.
    inversion Hall as [|? ? Hp _]; subst. discriminate Hp. }
  rewrite getBranch_path, Hsplit by assumption.
  now apply branchLoop_Resolves.
Qed.

Lemma dotted_path_selects_branch_witness :
  split_dot (dotted ["a"; "c"]) = ["a"; "c"]
  /\ forall tree branch,
       Resolves tree ["a"; "c"] branch ->
       getBranch tree (Some (dotted ["a"; "c"])) = branch.
Proof.
  apply (@dotted_path_selects_branch ["a"; "c"]).
  - repeat constructor.
  - discriminate.
Defined.

(** ** Keys of the presence map *)

Lemma fieldsMap_keys_satisfy (Q : string -> bool) fuel info options tree :
  info_names_sat Q info = true ->
  fieldsMap fuel info options = Ok tree ->
  WellFormed (fun k => Q k = true) tree.
Proof.
  intros Hnames. unfold fieldsMap.
  destruct (verifyInfo info) as [fieldNode|] eqn:Ev;
    [|intros [= <-]; apply WellFormed_nil].
  destruct info as [info|]; [|intros [= <-]; apply WellFormed_nil].
  destruct (verifyInfo_In _ Ev) as (nodes & Hl & HIn).
  simpl in Hnames. rewrite Hl in Hnames.
  apply andb_true_iff in Hnames as [Hfr Hsel].
  rewrite forallb_forall in Hsel. specialize (Hsel _ HIn).
  intros H. apply bind_Ok in H as (rules & _ & H).
  apply bind_Ok in H as (t & Ht & [= <-]).
  apply WellFormed_getBranch.
  eapply (@traverse_WellFormed (named_sat Q) (fun k => Q k = true)) in Ht;
    try eassumption.
  - intros name d ss Hn. exact Hn.
  - intros name d Hn. exact Hn.
  - apply WellFormed_nil.
Qed.

Lemma fieldsMap_unique_keys fuel info options tree :
  fieldsMap fuel info options = Ok tree ->
  WellFormed (fun _ => True) tree.
Proof.
  intros H.
  assert (Hwf : WellFormed (fun k => (fun _ : string => true) k = true) tree).
  { eapply fieldsMap_keys_satisfy; [|exact H].
    destruct info as [info|]; [|reflexivity]. simpl.
    rewrite all_fragments_always by (intros []; reflexivity).
    apply forallb_forall. intros fn _.
    apply all_selections_always. intros []; reflexivity. }
  clear H. induction Hwf as [t Hnd _ _ IH]. constructor; auto.
Qed.

(** X9: [fieldsMap] invents no name.  For names, path segments and skip
    patterns that name no inherited member, and whatever the predicate, if
    it holds of the name of every field and spread of the field nodes'
    selections and of the fragment table, it holds of every key of the
    returned map, at every level; and no level holds a key twice. *)
Theorem fieldsMap_keys_are_names :
  forall (Q : string -> bool) (fuel : nat) (info : option GraphQLResolveInfo)
         (options : option FieldsListOptions) (tree : MapResult),
    info_safe info = true ->
    options_safe options = true ->
    info_names_sat Q info = true ->
    fieldsMap fuel info options = Ok tree ->
    WellFormed (fun k => Q k = true) tree.
Proof.
  intros Q fuel info options tree _ _. apply fieldsMap_keys_satisfy.
Qed.

Lemma fieldsMap_keys_are_names_witness :
  WellFormed (fun k => negb (String.eqb k "c") = true)
             [("a", MTree [("b", MFalse)]); ("d", MFalse)].
Proof.
  exact (@fieldsMap_keys_are_names (fun k => negb (String.eqb k "c")) 2
           (info_of [Field "a" None (Some [Field "b" None None]);
                     Field "d" None None])
           None _ eq_refl eq_refl eq_refl eq_refl).
Defined.

(** ** Keys of the projection, exactly *)

Lemma In_lookup {V : Type} k (v : V) d :
  NoDup (keys d) -> In (k, v) d -> lookup k d = Some v.
Proof.
  induction d as [|[k' v'] d IH]; simpl; [tauto|].
  intros Hnd [E|HIn].
  - injection E as -> ->. now rewrite String.eqb_refl.
  - inversion Hnd as [|? ? Hnotin Hnd']; subst.
    destruct (String.eqb_spec k k') as [->|Hk].
    + exfalso. apply Hnotin. change k' with (fst (k', v)).
      now apply in_map.
    + auto.
Qed.

Lemma leaf_recorded transform keep tree path :
  LeafAt tree path ->
  forall node,
    In (renamed transform (fold_left toDotNotation path node))
       (recorded_level transform keep node tree).
Proof.
  induction 1 as [tree j Hl|tree j sub path Hl _ IH]; intros node;
    apply lookup_In in Hl;
    apply (recorded_at_incl transform keep node tree _ _ Hl).
  - now left.
  - rewrite recorded_at_MTree. apply in_app_iff. right. apply IH.
Qed.

Lemma recorded_level_origin transform keep P tree :
  WellFormed P tree ->
  forall node k,
    In k (recorded_level transform keep node tree) ->
    (exists path,
        LeafAt tree path
        /\ k = renamed transform (fold_left toDotNotation path node))
    \/ (keep = true
        /\ exists path sub,
             path <> [] /\ Resolves tree path sub
             /\ k = fold_left toDotNotation path node).
Proof.
  induction 1 as [tree Hnd _ _ IHsub]. intros node k.
  assert (Hlevel : forall l, incl l tree ->
             In k (recorded_level transform keep node l) ->
             (exists path,
                 LeafAt tree path
                 /\ k = renamed transform (fold_left toDotNotation path node))
             \/ (keep = true
                 /\ exists path sub,
                      path <> [] /\ Resolves tree path sub
                      /\ k = fold_left toDotNotation path node)).
  { induction l as [|[j v] rest IHl]; intros Hincl Hk; [contradiction|].
    assert (Hj : lookup j tree = Some v).
    { apply In_lookup; [exact Hnd | apply Hincl; now left]. }
    cbn [recorded_level] in Hk. apply in_app_iff in Hk as [Hk|Hk].
    - destruct v as [|sub].
      + destruct Hk as [<-|[]]. left. exists [j]. split; [now constructor | reflexivity].
      + rewrite recorded_at_MTree in Hk. apply in_app_iff in Hk as [Hk|Hk].
        * destruct keep; [|contradiction]. destruct Hk as [<-|[]].
          right. split; [reflexivity|]. exists [j], sub.
          split; [discriminate|]. split; [|reflexivity].
          econstructor; [exact Hj | constructor].
        * assert (HIn : In (j, MTree sub) tree) by (apply Hincl; now left).
          destruct (IHsub j sub HIn (toDotNotation node j) k Hk)
            as [(path & Hleaf & ->)|(Hkeep & path & s & Hne & Hres & ->)].
          -- left. exists (j :: path). split; [|reflexivity].
             econstructor; eassumption.
          -- right. split; [exact Hkeep|]. exists (j :: path), s.
             split; [discriminate|]. split; [|reflexivity].
             econstructor; eassumption.
    - apply IHl; [|exact Hk]. intros e He. apply Hincl. now right. }
  apply Hlevel. apply incl_refl.
Qed.

(** X10: for names, path segments, skip patterns and table entries that
    name no inherited member, the keys of the projection are exactly the
    renamed dot-paths of the leaves of the presence map and, when parents
    are kept, the dot-paths of its sub-maps; every entry holds [1]. *)
Theorem projection_keys_exact :
  forall (fuel : nat) (info : option GraphQLResolveInfo)
         (options : option FieldsListOptions) (tree : MapResult),
    info_safe info = true ->
    options_safe options = true ->
    fieldsMap fuel info options = Ok tree ->
    exists proj,
      fieldsProjection fuel info options = Ok proj
      /\ (forall k v, lookup k proj = Some v -> v = 1)
      /\ forall k,
           lookup k proj = Some 1
           <-> (exists path,
                   LeafAt tree path
                   /\ k = renamed (transform_of options) (dotted path))
               \/ (keepParent options = true
                   /\ exists path sub,
                        path <> [] /\ Resolves tree path sub /\ k = dotted path).
Proof.
  intros fuel info options tree _ _ Hmap.
  destruct (fieldsProjection_keys _ _ _ Hmap) as (proj & Hproj & _ & Hones & Hkeys).
  pose proof (fieldsMap_unique_keys _ _ _ Hmap) as Hwf.
  exists proj. split; [exact Hproj|]. split; [exact Hones|].
  intros k.
  assert (Hin : lookup k proj = Some 1 <-> In k (keys proj)).
  { split.
    - intros H. eapply lookup_Some_keys; exact H.
    - intros H. destruct (lookup k proj) as [v|] eqn:El.
      + now rewrite (Hones _ _ El).
      + apply lookup_None_keys in El. contradiction. }
  rewrite Hin, Hkeys. split.
  - apply (recorded_level_origin (transform_of options) (keepParent options) Hwf).
  - intros [(path & Hleaf & ->)|(Hkeep & path & sub & Hne & Hres & ->)].
    + unfold dotted. now apply leaf_recorded.
    + rewrite Hkeep. unfold dotted. eapply parent_recorded; eassumption.
Qed.

Lemma projection_keys_exact_witness :
  exists proj,
    fieldsProjection 2 (info_of ParentExample.selection) ParentExample.options
    = Ok proj
    /\ (forall k v, lookup k proj = Some v -> v = 1)
    /\ forall k,
         lookup k proj = Some 1
         <-> (exists path,
                 LeafAt [("a", MTree [("b", MFalse)]); ("c", MFalse)] path
                 /\ k = renamed (transform_of ParentExample.options) (dotted path))
             \/ (keepParent ParentExample.options = true
                 /\ exists path sub,
                      path <> []
                      /\ Resolves [("a", MTree [("b", MFalse)]); ("c", MFalse)] path sub
                      /\ k = dotted path).
Proof.
  exact (@projection_keys_exact 2 (info_of ParentExample.selection)
           ParentExample.options _ eq_refl eq_refl eq_refl).
Defined.

(** ** Flat selections *)

Lemma projectLevel_flat transform keep tree : forall stack map,
  Forall (fun e => snd e = MFalse) tree ->
  snd (projectLevel transform keep "" tree stack map)
  = fold_left (fun m e => set (renamed transform (fst e)) 1 m) tree map
  /\ children "" tree = [].
Proof.
  induction tree as [|[j v] rest IH]; intros stack map Hall; [now split|].
  inversion Hall as [|? ? Hv Hrest]; subst. simpl in Hv. subst v.
  cbn [projectLevel children fold_left fst toDotNotation]. now apply IH.
Qed.

Lemma fold_set_fresh (l : list (string * MapResultKey)) : forall map : FieldsProjection,
  NoDup (keys map ++ keys l) ->
  fold_left (fun m e => set (renamed [] (fst e)) 1 m) l map
  = map ++ List.map (fun k => (k, 1)) (keys l).
Proof.
  induction l as [|[j v] rest IH]; intros map Hnd; simpl.
  - now rewrite app_nil_r.
  - assert (Hj : lookup j map = None).
    { apply lookup_None_keys. intros HIn.
      apply NoDup_remove_2 in Hnd. apply Hnd, in_app_iff. now left. }
    change (renamed [] j) with j. rewrite (set_absent j 1 map Hj).
    rewrite IH.
    + now rewrite <- app_assoc.
    + unfold keys in *. rewrite map_app. simpl in *.
      rewrite <- app_assoc. exact Hnd.
Qed.

(** X11: called with an options object that has no transform table (or an
    empty one), for names, path segments and skip patterns that name no
    inherited member, and a presence map made of leaves only, the
    projection lists the names that [fieldsList] returns, in the same
    order, each with the value [1]. *)
Theorem flat_projection_is_fieldsList :
  forall (fuel : nat) (info : option GraphQLResolveInfo)
         (options : FieldsListOptions) (tree : MapResult),
    info_safe info = true ->
    options_safe (Some options) = true ->
    fieldsMap fuel info (Some options) = Ok tree ->
    Forall (fun e => snd e = MFalse) tree ->
    transform options = None \/ transform options = Some [] ->
    fieldsList fuel info (Some options) = Ok (keys tree)
    /\ fieldsProjection fuel info (Some options)
       = Ok (map (fun k => (k, 1)) (keys tree)).
Proof.
  intros fuel info options tree _ _ Hmap Hflat Htr.
  assert (Ht : transform_of (Some options) = []).
  { unfold transform_of. destruct Htr as [-> | ->]; reflexivity. }
  pose proof (fieldsMap_unique_keys _ _ _ Hmap) as Hwf.
  destruct Hwf as [t Hnd _ _].
  unfold fieldsList, fieldsProjection. rewrite Hmap, Ht. cbn [bind]. split.
  - f_equal. unfold keys. rewrite map_map.
    apply map_ext. intros [k v]. reflexivity.
  - f_equal. rewrite projectLoop_round.
    destruct (projectLevel_flat [] (keepParent (Some options)) [("", t)] [] Hflat)
      as [Hsnd Hch].
    rewrite Hch. cbn [app]. rewrite projectLoop_equation_1.
    etransitivity; [exact Hsnd|]. now rewrite fold_set_fresh.
Qed.

Lemma flat_projection_is_fieldsList_witness :
  fieldsList 2 (info_of [Field "id" None None; Field "name" None None;
                         Field "id" None None])
             (Some noOptions)
  = Ok ["id"; "name"]
  /\ fieldsProjection 2 (info_of [Field "id" None None; Field "name" None None;
                                  Field "id" None None])
                      (Some noOptions)
     = Ok [("id", 1); ("name", 1)].
Proof.
  apply (@flat_projection_is_fieldsList 2
           (info_of [Field "id" None None; Field "name" None None;
                     Field "id" None None])
           noOptions [("id", MFalse); ("name", MFalse)] eq_refl eq_refl eq_refl).
  - repeat constructor.
  - now left.
Defined.

(** ** Termination of the walk *)

Lemma traverse_returns opts nodes :
  Finite (fragments opts) nodes ->
  exists n, forall fuel, n <= fuel -> forall root skip,
    exists m, traverse fuel opts nodes root skip = Ok m.
Proof.
  intros Hfin. destruct (@traverse_loop_Finite opts nodes Hfin) as [n Hn].
  exists (S n). intros fuel Hfuel root skip.
  destruct fuel as [|fuel]; [lia|]. apply Hn. lia.
Qed.

(** X12: the walk ends where no fragment leads back to itself.  For
    names, path segments and skip patterns that name no inherited member,
    and plain wildcard keys, if the skip patterns compile, [fieldsMap]
    returns a map within some budget whenever the inlining of the matched
    field node's selection is finite, in particular whenever the fragment
    table is empty; directives, variables and skip rules play no part in
    this. *)
Theorem fieldsMap_returns :
  (forall (info : GraphQLResolveInfo) (options : option FieldsListOptions)
          (rules : SkipTree),
      info_safe (Some info) = true ->
      options_safe options = true ->
      skipTree (skip_patterns options) = Ok rules ->
      (forall fieldNode,
          verifyInfo (Some info) = Some fieldNode ->
          Finite (info_fragments info) (selections_of fieldNode)) ->
      exists n, forall fuel, n <= fuel ->
        exists m, fieldsMap fuel (Some info) options = Ok m)
  /\ (forall (info : GraphQLResolveInfo) (options : option FieldsListOptions)
             (rules : SkipTree),
        info_safe (Some info) = true ->
        options_safe options = true ->
        skipTree (skip_patterns options) = Ok rules ->
        info_fragments info = [] ->
        exists n, forall fuel, n <= fuel ->
          exists m, fieldsMap fuel (Some info) options = Ok m).
Proof.
  assert (Hgen : forall (info : GraphQLResolveInfo)
                        (options : option FieldsListOptions) (rules : SkipTree),
      skipTree (skip_patterns options) = Ok rules ->
      (forall fieldNode,
          verifyInfo (Some info) = Some fieldNode ->
          Finite (info_fragments info) (selections_of fieldNode)) ->
      exists n, forall fuel, n <= fuel ->
        exists m, fieldsMap fuel (Some info) options = Ok m).
  { intros info options rules Hr Hfin. unfold fieldsMap.
    destruct (verifyInfo (Some info)) as [fn|] eqn:Ev.
    - destruct (@traverse_returns (walk_options info options) (selections_of fn)
                  (Hfin fn eq_refl)) as [n Hn].
      exists n. intros fuel Hfuel.
      destruct (Hn fuel Hfuel [] (STree rules)) as [m Hm].
      unfold skip_patterns in Hr. rewrite Hr. cbn [bind].
      unfold walk_options, selections_of in Hm. rewrite Hm. cbn [bind]. eauto.
    - exists 0. intros fuel _. eauto. }
  split; [intros info options rules _ _; apply Hgen|].
  intros info options rules _ _ Hr Hempty. apply (Hgen info options rules Hr).
  intros fn _. rewrite Hempty. apply Finite_without_fragments.
Qed.

Lemma fieldsMap_returns_witness :
  exists n, forall fuel, n <= fuel ->
    exists m,
      fieldsMap fuel
        (Some (mkInfo "root"
                 (Some [mkFieldNode "root" None (Some InliningExample.selection)])
                 None InliningExample.table None))
        (Some (mkOptions None None None None (Some ["a.c"; "b*"])))
      = Ok m.
Proof.
  destruct fieldsMap_returns as [Hgen _].
  apply (Hgen (mkInfo "root"
                 (Some [mkFieldNode "root" None (Some InliningExample.selection)])
                 None InliningExample.table None)
              (Some (mkOptions None None None None (Some ["a.c"; "b*"])))
              [("a", STree [("c", STrue)]); ("b*", STrue)] eq_refl eq_refl eq_refl).
  intros fn [= <-]. unfold selections_of, InliningExample.selection. simpl.
  finite_inlining.
Defined.

(** ** The entry resolver, exactly *)

Lemma find_first {A : Type} (f : A -> bool) (l : list A) (x : A) :
  find f l = Some x
  <-> exists before after,
        l = before ++ x :: after
        /\ f x = true
        /\ Forall (fun y => f y = false) before.
Proof.
  induction l as [|y l IH]; simpl.
  - split; [discriminate|]. intros (b & a & E & _). now destruct b.
  - destruct (f y) eqn:Ey.
    + split.
      * intros [= ->]. exists [], l. auto.
      * intros ([|z b] & a & E & Hx & Hb).
        -- now injection E as ->.
        -- injection E as -> _. inversion Hb; subst. congruence.
    + rewrite IH. split.
      * intros (b & a & -> & Hx & Hb). exists (y :: b), a. auto.
      * intros ([|z b] & a & E & Hx & Hb).
        -- injection E as -> _. congruence.
        -- injection E as -> ->. inversion Hb; subst. eauto.
Qed.

(** X13: [verifyInfo] answers a node exactly when the list it reads
    ([fieldNodes], or [fieldASTs] when [fieldNodes] is absent) has a node
    named as the current field and the first such node has a selection set;
    it answers that first node, so that a later node of the same name with a
    selection set is never used. *)
Theorem verifyInfo_first_match :
  forall (info : GraphQLResolveInfo) (fieldNode : FieldNode),
    verifyInfo (Some info) = Some fieldNode
    <-> exists nodes before after,
          field_node_list info = Some nodes
          /\ nodes = before ++ fieldNode :: after
          /\ Forall (fun n => fn_name n <> fieldName info) before
          /\ fn_name fieldNode = fieldName info
          /\ fn_selectionSet fieldNode <> None.
Proof.
  intros info fieldNode.
  assert (Hv : verifyInfo (Some info)
               = match field_node_list info with
                 | Some nodes => verifyFieldNode info nodes
                 | None => None
                 end).
  { unfold verifyInfo, field_node_list.
    destruct (fieldNodes info); [reflexivity|].
    destruct (fieldASTs info); reflexivity. }
  rewrite Hv. clear Hv. split.
  - destruct (field_node_list info) as [nodes|]; [|discriminate].
    unfold verifyFieldNode.
    destruct (find _ nodes) as [n|] eqn:Ef; [|discriminate].
    destruct (fn_selectionSet n) eqn:Es; [|discriminate]. intros [= <-].
    apply find_first in Ef as (before & after & -> & Hn & Hb).
    exists (before ++ n :: after), before, after.
    split; [reflexivity|]. split; [reflexivity|]. split; [|split].
    + eapply Forall_impl; [|exact Hb]. intros a Ha. now apply String.eqb_neq.
    + now apply String.eqb_eq.
    + congruence.
  - intros (nodes & before & after & -> & -> & Hb & Hn & Hs).
    unfold verifyFieldNode.
    assert (Ef : find (fun node => String.eqb (fn_name node) (fieldName info))
                   (before ++ fieldNode :: after) = Some fieldNode).
    { apply find_first. exists before, after. split; [reflexivity|]. split.
      - now apply String.eqb_eq.
      - eapply Forall_impl; [|exact Hb]. intros a Ha. now apply String.eqb_neq. }
    rewrite Ef. destruct (fn_selectionSet fieldNode); congruence.
Qed.

(** ** Directives and variables *)

Lemma traverse_loop_ext rec rec' opts opts' :
  (forall nodes root skip, rec nodes root skip = rec' nodes root skip) ->
  fragments opts' = fragments opts ->
  withVars opts = false -> withVars opts' = false ->
  forall nodes root skip,
    traverse_loop rec opts nodes root skip = traverse_loop rec' opts' nodes root skip.
Proof.
  intros Hrec Hfr Hoff Hoff' nodes.
  induction nodes as [|node rest IH]; intros root skip; [reflexivity|].
  cbn [traverse_loop].
  assert (Hnode : traverse_node rec opts node root skip
                  = traverse_node rec' opts' node root skip).
  { unfold traverse_node, traverse_named. rewrite Hoff, Hoff', Hfr. cbn [andb].
    destruct node as [name d ss|name d|d sels].
    - destruct (lookup name (fragments opts)); [apply Hrec|].
      destruct (verifySkip name skip); try reflexivity;
        destruct (getNodes (Field name d ss)); try reflexivity;
        destruct (lookup name root) as [[|sub]|]; cbn -[set];
        now rewrite ?Hrec.
    - destruct (lookup name (fragments opts)); [apply Hrec|].
      destruct (verifySkip name skip); reflexivity.
    - destruct (is_nil sels); [reflexivity | apply Hrec]. }
  rewrite Hnode. destruct (traverse_node rec' opts' node root skip); cbn [bind];
    auto.
Qed.

Lemma traverse_ext fuel opts opts' :
  fragments opts' = fragments opts ->
  withVars opts = false -> withVars opts' = false ->
  forall nodes root skip,
    traverse fuel opts nodes root skip = traverse fuel opts' nodes root skip.
Proof.
  intros Hfr Hoff Hoff'. induction fuel as [|fuel IH]; [reflexivity|].
  intros nodes root skip. cbn [traverse]. now apply traverse_loop_ext.
Qed.

(** X14: without an options object, and with [withDirectives: false], the
    directives are not evaluated: the map that [fieldsMap] returns is the
    same whatever the variable values. *)
Theorem fieldsMap_ignores_variables :
  forall (fuel : nat) (info : GraphQLResolveInfo)
         (values : option VariablesValues) (options : option FieldsListOptions),
    options = None
    \/ (exists o, options = Some o /\ withDirectives o = Some false) ->
    fieldsMap fuel (Some (with_variables info values)) options
    = fieldsMap fuel (Some info) options.
Proof.
  intros fuel info values options Hoff.
  assert (Hw : truthy (withDirectives (parseOptions options)) = false).
  { destruct Hoff as [->|(o & -> & Ho)]; [reflexivity|].
    unfold parseOptions. rewrite Ho. now rewrite Ho. }
  unfold fieldsMap.
  assert (Hv : verifyInfo (Some (with_variables info values))
               = verifyInfo (Some info)).
  { unfold verifyInfo, verifyFieldNode. simpl.
    destruct (fieldNodes info); [reflexivity|].
    destruct (fieldASTs info); reflexivity. }
  rewrite Hv. destruct (verifyInfo (Some info)) as [fn|]; [|reflexivity].
  destruct (skipTree _) as [rules| |]; cbn [bind]; try reflexivity.
  rewrite Hw.
  rewrite (@traverse_ext fuel
             (mkTraverseOptions (info_fragments (with_variables info values))
                (variableValues (with_variables info values)) false)
             (mkTraverseOptions (info_fragments info) (variableValues info) false));
    reflexivity.
Qed.

Lemma fieldsMap_ignores_variables_witness :
  fieldsMap 2
    (Some (with_variables
             (mkInfo "root"
                (Some [mkFieldNode "root" None
                         (Some [Field "a" (Some [mkDirective "skip"
                                   (Some [mkArgument "if" (Variable_ "v")])]) None])])
                None [] None)
             (Some [("v", true)])))
    None
  = fieldsMap 2
      (Some (mkInfo "root"
               (Some [mkFieldNode "root" None
                        (Some [Field "a" (Some [mkDirective "skip"
                                  (Some [mkArgument "if" (Variable_ "v")])]) None])])
               None [] None))
      None.
Proof.
  apply fieldsMap_ignores_variables. now left.
Defined.

(** X15: on a boolean literal or a variable, [@skip] and [@include]
    decide oppositely, so that a node carrying both on the same argument is
    never included; a variable without a value, whose name names no
    inherited member, counts as [false], so that [@include] on it rejects
    and [@skip] on it permits. *)
Theorem skip_and_include_are_opposite :
  forall (arg : ArgumentNode) (vars : option VariablesValues),
    boolean_or_variable arg = true ->
    verifyDirective (mkDirective "skip" (Some [arg])) (bindings vars)
    = negb (verifyDirective (mkDirective "include" (Some [arg])) (bindings vars))
    /\ verifyDirectives (Some [mkDirective "skip" (Some [arg]);
                               mkDirective "include" (Some [arg])]) vars = false
    /\ (forall v,
          arg_value arg = Variable_ v -> own_only v = true ->
          lookup v (bindings vars) = None ->
          verifyDirective (mkDirective "include" (Some [arg])) (bindings vars) = false
          /\ verifyDirective (mkDirective "skip" (Some [arg])) (bindings vars) = true).
Proof.
  intros arg vars Hkind.
  assert (Hopp : verifyDirective (mkDirective "skip" (Some [arg])) (bindings vars)
    = negb (verifyDirective (mkDirective "include" (Some [arg])) (bindings vars))).
  { unfold verifyDirective, verifyDirectiveArg, boolean_or_variable in *. simpl.
    destruct (arg_value arg) as [b|v|]; [| |discriminate].
    - destruct b; reflexivity.
    - destruct (var_value (bindings vars) v); reflexivity. }
  split; [exact Hopp|]. split.
  - rewrite verifyDirectives_forallb. cbn [directive_list forallb].
    rewrite Hopp.
    generalize (verifyDirective (mkDirective "include" (Some [arg])) (bindings vars)).
    intros []; reflexivity.
  - intros v Hv _ Hl.
    unfold verifyDirective, verifyDirectiveArg, var_value. simpl.
    rewrite Hv, Hl. split; reflexivity.
Qed.

Lemma skip_and_include_are_opposite_witness :
  verifyDirectives
    (Some [mkDirective "skip" (Some [mkArgument "if" (Variable_ "v")]);
           mkDirective "include" (Some [mkArgument "if" (Variable_ "v")])])
    (Some [("v", true)])
  = false.
Proof.
  apply (@skip_and_include_are_opposite (mkArgument "if" (Variable_ "v"))
           (Some [("v", true)]) eq_refl).
Defined.

(** ** Skip patterns compiled twice, and scopes without a star *)

Lemma skipProps_again props : forall t t',
  Forall (fun s => s <> "*") props ->
  skipProps props t = Ok t' -> skipProps props t' = Ok t'.
Proof.
  induction props as [|prop rest IH]; intros t t' Hall H.
  - simpl in H. injection H as <-. reflexivity.
  - inversion Hall as [|? ? _ Hrest]; subst.
    assert (Hall' : match rest with
                    | next :: _ => String.eqb next "*"
                    | [] => false
                    end = false).
    { destruct rest as [|next r]; [reflexivity|].
      inversion Hrest; subst. now apply String.eqb_neq. }
    cbn [skipProps] in *. rewrite Hall' in *.
    assert (Hfresh :
              (if match rest with [] => true | _ :: _ => false end
               then match rest with
                    | [] => Ok (set prop STrue t)
                    | _ :: _ => TypeError
                    end
               else sub' <- skipProps rest [] ;; Ok (set prop (STree sub') t))
              = Ok t' ->
              match lookup prop t' with
              | Some STrue =>
                  match rest with [] => Ok t' | _ :: _ => TypeError end
              | Some (STree sub) =>
                  sub' <- skipProps rest sub ;; Ok (set prop (STree sub') t')
              | _ =>
                  if match rest with [] => true | _ :: _ => false end
                  then match rest with
                       | [] => Ok (set prop STrue t')
                       | _ :: _ => TypeError
                       end
                  else sub' <- skipProps rest [] ;; Ok (set prop (STree sub') t')
              end = Ok t').
    { destruct rest as [|next r].
      - intros [= <-]. now rewrite lookup_set_same.
      - intros H0. apply bind_Ok in H0 as (sub' & Hs & [= <-]).
        rewrite lookup_set_same. rewrite (IH _ _ Hrest Hs). cbn [bind].
        now rewrite set_set. }
    destruct (lookup prop t) as [[| |sub]|] eqn:El.
    + destruct rest; apply Hfresh; exact H.
    + destruct rest as [|next r]; [|discriminate].
      injection H as <-. now rewrite El.
    + apply bind_Ok in H as (sub' & Hs & [= <-]).
      rewrite lookup_set_same. rewrite (IH _ _ Hrest Hs). cbn [bind].
      now rewrite set_set.
    + destruct rest; apply Hfresh; exact H.
Qed.

Lemma skipPatterns_app l1 l2 : forall t,
  skipPatterns (l1 ++ l2) t = bind (skipPatterns l1 t) (skipPatterns l2).
Proof.
  induction l1 as [|p l1 IH]; intros t; [reflexivity|].
  cbn [app skipPatterns]. destruct (skipProps (split_dot p) t); cbn [bind]; auto.
Qed.

(** X16: a skip pattern given twice in a row counts once.  If a list of
    patterns that ends with a pattern without a wildcard segment compiles,
    the list with this pattern repeated compiles to the same tree. *)
Theorem skipTree_repeated_pattern :
  forall (patterns : list string) (pattern : string) (tree : SkipTree),
    Forall (fun s => s <> "*") (split_dot pattern) ->
    skipTree (patterns ++ [pattern]) = Ok tree ->
    skipTree (patterns ++ [pattern; pattern]) = Ok tree.
Proof.
  intros patterns pattern tree Hfree. unfold skipTree.
  rewrite !skipPatterns_app. intros H.
  apply bind_Ok in H as (t & -> & H). cbn [bind skipPatterns] in *.
  apply bind_Ok in H as (t' & Hp & [= <-]).
  rewrite Hp. cbn [bind]. now rewrite (skipProps_again _ Hfree Hp).
Qed.

Lemma skipTree_repeated_pattern_witness :
  skipTree (["a.b"] ++ ["a.c*"; "a.c*"]) = Ok [("a", STree [("b", STrue); ("c*", STrue)])].
Proof.
  apply (@skipTree_repeated_pattern ["a.b"] "a.c*").
  - repeat constructor; discriminate.
  - reflexivity.
Defined.

(** X17: under a scope that has no key for a field whose name is a GraphQL
    name that names no inherited member, the field is skipped by wildcard
    keys only: by none if no key of the scope holds a star, and always if
    the scope has the key [*] holding [true] and its wildcard keys are
    plain. *)
Theorem verifySkip_without_exact_key :
  forall (tree : SkipTree) (node : string),
    field_name node = true ->
    scope_keys_plain tree = true ->
    lookup node tree = None ->
    (Forall (fun k => has_star k = false) (keys tree) ->
     verifySkip node (STree tree) = SFalse)
    /\ (lookup "*" tree = Some STrue -> verifySkip node (STree tree) = STrue).
Proof.
  intros tree node _ _ Hnone. split.
  - intros Hfree. unfold verifySkip. rewrite Hnone.
    assert (E : filter has_star (keys tree) = []).
    { induction (keys tree) as [|k ks IH]; [reflexivity|].
      inversion Hfree as [|? ? Hk Hks]; subst. simpl. rewrite Hk. auto. }
    now rewrite E.
  - intros Hstar. apply verifySkip_wildcard_true with (pattern := "*");
      auto. apply rx_test_any_star.
Qed.

Lemma verifySkip_without_exact_key_witness :
  verifySkip "metadata" (STree [("id", STrue); ("meta", STree [])]) = SFalse
  /\ verifySkip "metadata" (STree [("id", STrue); ("*", STrue)]) = STrue.
Proof.
  split.
  - apply (@verifySkip_without_exact_key [("id", STrue); ("meta", STree [])]
             "metadata" eq_refl eq_refl eq_refl).
    repeat constructor.
  - apply (@verifySkip_without_exact_key [("id", STrue); ("*", STrue)]
             "metadata" eq_refl eq_refl eq_refl).
    reflexivity.
Defined.

(** ** Instances *)

Lemma traverse_selected_paths_witness :
  InMap ["a"; "b"] [("a", MTree [("b", MFalse)]); ("d", MFalse)]
  <-> InMap ["a"; "b"] []
      \/ Selected (mkTraverseOptions [] None true)
                  (STree [("a", STree [("c", STrue)])])
                  Example.selection ["a"; "b"].
Proof.
  exact (@traverse_selected_paths 2 (mkTraverseOptions [] None true)
           Example.selection [] (STree [("a", STree [("c", STrue)])])
           [("a", MTree [("b", MFalse)]); ("d", MFalse)]
           eq_refl eq_refl eq_refl ["a"; "b"]).
Defined.

Lemma skip_only_removes_witness :
  InMap ["a"; "b"] [("a", MTree [("b", MFalse); ("c", MFalse)]); ("d", MFalse)].
Proof.
  apply (@skip_only_removes 2 2 (Example.info None)
           (mkOptions None None (Some true) None (Some ["a.c"]))
           [("a", MTree [("b", MFalse)]); ("d", MFalse)]
           [("a", MTree [("b", MFalse); ("c", MFalse)]); ("d", MFalse)]
           eq_refl eq_refl eq_refl eq_refl ["a"; "b"]).
  simpl. discriminate.
Defined.

Lemma directives_only_remove_witness :
  InMap ["a"] [("a", MFalse); ("b", MFalse)].
Proof.
  apply (@directives_only_remove 2 2
           (info_of [Field "a" None None;
                     Field "b" (Some [skip_if true]) None])
           (mkOptions None None (Some true) None None)
           [("a", MFalse)] [("a", MFalse); ("b", MFalse)]
           eq_refl eq_refl ["a"]).
  simpl. discriminate.
Defined.

Lemma traverse_same_nodes_witness :
  InMap ["a"; "b"] [("d", MFalse); ("a", MTree [("b", MFalse); ("c", MFalse)])]
  <-> InMap ["a"; "b"] [("a", MTree [("b", MFalse); ("c", MFalse)]); ("d", MFalse)].
Proof.
  apply (@traverse_same_nodes 2 2 (mkTraverseOptions [] None true)
           (rev Example.selection ++ Example.selection) Example.selection
           [] (STree [])).
  - intros node. rewrite in_app_iff, <- in_rev. tauto.
  - reflexivity.
  - reflexivity.
Defined.

Lemma single_pattern_removes_its_extensions_witness :
  InMap ["a"; "c"] [("a", MTree [("b", MFalse)]); ("d", MFalse)]
  <-> InMap ["a"; "c"] [("a", MTree [("b", MFalse); ("c", MFalse)]); ("d", MFalse)]
      /\ ~ Prefixed (split_dot "a.c") ["a"; "c"].
Proof.
  apply (@single_pattern_removes_its_extensions 2 2 (Example.info None)
           (mkOptions None None (Some true) None (Some ["a.c"])) "a.c"
           [("a", MTree [("b", MFalse)]); ("d", MFalse)]
           [("a", MTree [("b", MFalse); ("c", MFalse)]); ("d", MFalse)]).
  - reflexivity.
  - reflexivity.
  - reflexivity.
  - reflexivity.
  - repeat constructor.
  - reflexivity.
  - reflexivity.
Defined.
